(** * The embedded key-value engine of bench_vs.c

    A shallow embedding of the self-made KVM of [src/bench_vs.c] (the fixed
    64 MiB region holding a Bloom bitmap, a bucket table and an append-only
    data zone) together with the proofs of its specification.

    Conventions of the embedding:
    - the region [db->mem] is a function from byte offsets to bytes; every
      load and store is checked against [0, mem_size) and an access outside
      is the outcome [Fault] (undefined behaviour in C);
    - [uint32_t] and [size_t] values are integers of [Z] with the wrap-around
      modulo [2^32] and [2^64] written out ([u32], [usize]); the target is a
      64-bit little-endian machine on which plain [char] is signed;
    - a [const char *] argument is the list of the bytes of its buffer, the
      terminating zero byte being implicit after the last element, so that
      [strlen] is the number of bytes before the first zero byte;
    - the [while] loop of [kvm_get] runs on fuel, [OutOfFuel] being the
      outcome of a walk that did not finish. *)

From Stdlib Require Import ZArith List Lia Bool Permutation.
From Stdlib Require String.
From coqutil Require Import Byte Word.LittleEndianList.
Import ListNotations.
Local Open Scope Z_scope.

(** ** Layout constants (bench_vs.c, lines 23-36) *)

Definition BUCKET_COUNT : Z := 8 * 1024.
Definition BLOOM_SIZE : Z := Z.shiftl 1 20.
Definition POOL_SIZE : Z := 64 * 1024 * 1024.

Definition sizeof_uint32_t : Z := 4.
Definition BLOOM_OFF : Z := 0.
Definition BUCKET_OFF : Z := BLOOM_SIZE / 8.
Definition DATA_OFF : Z := BUCKET_OFF + BUCKET_COUNT * sizeof_uint32_t.

(** [Entry] is three [uint32_t] fields followed by a flexible array member. *)
Definition sizeof_Entry : Z := 3 * sizeof_uint32_t.
Definition Entry_klen : Z := 0.
Definition Entry_vlen : Z := 4.
Definition Entry_next : Z := 8.
Definition Entry_data : Z := 12.

(** ** Machine integers *)

Definition u32 (z : Z) : Z := z mod 2 ^ 32.
Definition usize (z : Z) : Z := z mod 2 ^ 64.

(** [(uint8_t)c] and the promotion of a plain (signed) [char] to [int]. *)
Definition uint8_of_char (b : byte) : Z := byte.unsigned b.
Definition int_of_char (b : byte) : Z :=
  if byte.unsigned b <? 128 then byte.unsigned b else byte.unsigned b - 256.

(** ** C strings *)

Fixpoint strlen (s : list byte) : Z :=
  match s with
  | [] => 0
  | b :: t => if byte.unsigned b =? 0 then 0 else 1 + strlen t
  end.

(** The first [n] bytes of a buffer, as [memcpy], [memcmp] and the hash loops
    read them. *)
Definition prefix (n : Z) (s : list byte) : list byte := firstn (Z.to_nat n) s.

Fixpoint bytes_eqb (a b : list byte) : bool :=
  match a, b with
  | [], [] => true
  | x :: a', y :: b' => (byte.unsigned x =? byte.unsigned y) && bytes_eqb a' b'
  | _, _ => false
  end.

(** ** The three hash functions (lines 47-66)

    The loops read [key[0 .. len-1]]; [prefix len key] is that for a [len]
    within the buffer, [0 <= len <= length key], which is what [kvm_put] and
    [kvm_get] pass.  A longer [len] would make the C loops read the
    terminator and then past the buffer, which [prefix] does not describe. *)

Definition fnv1a (key : list byte) (len : Z) : Z :=
  fold_left (fun h c => u32 (Z.lxor h (uint8_of_char c) * 16777619))
            (prefix len key) 2166136261.

Definition hash2 (key : list byte) (len : Z) : Z :=
  fold_left (fun h c => Z.lxor (u32 (u32 (Z.shiftl h 5) + h)) (u32 (int_of_char c)))
            (prefix len key) 0x5bd1e995.

Definition hash3 (key : list byte) (len : Z) : Z :=
  fold_left (fun h c => u32 (u32 (h * 31) + u32 (int_of_char c)))
            (prefix len key) 0x811c9dc5.

(** ** The handle and its region (lines 38-45) *)

Record KVM : Type := mkKVM {
  mem : Z -> byte;
  mem_size : Z;
  bloom : Z;      (* offset of [db->bloom] from [db->mem] *)
  buckets : Z;    (* offset of [db->buckets] from [db->mem] *)
  write_pos : Z;
  count : Z
}.

Definition set_mem (m : Z -> byte) (db : KVM) : KVM :=
  mkKVM m (mem_size db) (bloom db) (buckets db) (write_pos db) (count db).
Definition set_write_pos (p : Z) (db : KVM) : KVM :=
  mkKVM (mem db) (mem_size db) (bloom db) (buckets db) p (count db).
Definition set_count (c : Z) (db : KVM) : KVM :=
  mkKVM (mem db) (mem_size db) (bloom db) (buckets db) (write_pos db) c.

(** Pure reads and writes of a byte memory. *)
Fixpoint read_bytes (m : Z -> byte) (a : Z) (n : nat) : list byte :=
  match n with
  | O => []
  | S k => m a :: read_bytes m (a + 1) k
  end.

Definition write_bytes (m : Z -> byte) (a : Z) (l : list byte) : Z -> byte :=
  fun x =>
    if (a <=? x) && (x <? a + Z.of_nat (length l))
    then nth (Z.to_nat (x - a)) l Byte.x00
    else m x.

Definition read32 (m : Z -> byte) (a : Z) : Z := le_combine (read_bytes m a 4).
Definition write32 (m : Z -> byte) (a v : Z) : Z -> byte := write_bytes m a (le_split 4 v).
Definition read8 (m : Z -> byte) (a : Z) : Z := byte.unsigned (m a).
Definition write8 (m : Z -> byte) (a v : Z) : Z -> byte := write_bytes m a [byte.of_Z v].

(** ** Outcomes and the state monad of the engine *)

Inductive outcome (A : Type) : Type :=
| Ok (a : A)
| Fault
| OutOfFuel.
Arguments Ok {A} a.
Arguments Fault {A}.
Arguments OutOfFuel {A}.

Definition M (A : Type) : Type := KVM -> outcome (A * KVM).

Definition ret {A} (a : A) : M A := fun db => Ok (a, db).
Definition bind {A B} (c : M A) (k : A -> M B) : M B :=
  fun db => match c db with
            | Ok (a, db') => k a db'
            | Fault => Fault
            | OutOfFuel => OutOfFuel
            end.
Definition out_of_fuel {A} : M A := fun _ => OutOfFuel.
Definition gets {A} (f : KVM -> A) : M A := fun db => Ok (f db, db).
Definition modify (f : KVM -> KVM) : M unit := fun db => Ok (tt, f db).

Notation "x <- c ;; k" := (bind c (fun x => k))
  (at level 61, c at next level, right associativity).
Notation "c ;;; k" := (bind c (fun _ => k))
  (at level 61, right associativity).

Definition in_region (db : KVM) (a n : Z) : bool :=
  (0 <=? a) && (a + n <=? mem_size db).

Definition load_bytes (a : Z) (n : Z) : M (list byte) :=
  fun db => if in_region db a n
            then Ok (read_bytes (mem db) a (Z.to_nat n), db)
            else Fault.
Definition store_bytes (a : Z) (l : list byte) : M unit :=
  fun db => if in_region db a (Z.of_nat (length l))
            then Ok (tt, set_mem (write_bytes (mem db) a l) db)
            else Fault.
Definition load32 (a : Z) : M Z := bs <- load_bytes a 4 ;; ret (le_combine bs).
Definition store32 (a v : Z) : M unit := store_bytes a (le_split 4 v).
Definition load8 (a : Z) : M Z := bs <- load_bytes a 1 ;; ret (le_combine bs).
Definition store8 (a v : Z) : M unit := store_bytes a (le_split 1 v).

(** ** Bloom filter (lines 68-84) *)

Definition bloom_set (h : Z) : M unit :=
  b <- gets bloom ;;
  old <- load8 (b + Z.shiftr h 3) ;;
  store8 (b + Z.shiftr h 3) (Z.lor old (Z.shiftl 1 (Z.land h 7))).

Definition bloom_add (key : list byte) (len : Z) : M unit :=
  let h1 := fnv1a key len mod BLOOM_SIZE in
  let h2 := hash2 key len mod BLOOM_SIZE in
  let h3 := hash3 key len mod BLOOM_SIZE in
  bloom_set h1 ;;; bloom_set h2 ;;; bloom_set h3.

Definition bloom_bit (h : Z) : M bool :=
  b <- gets bloom ;;
  x <- load8 (b + Z.shiftr h 3) ;;
  ret (negb (Z.land x (Z.shiftl 1 (Z.land h 7)) =? 0)).

(** The [&&] of C evaluates its right operand only when the left one is
    non-zero. *)
Definition bloom_maybe (key : list byte) (len : Z) : M bool :=
  let h1 := fnv1a key len mod BLOOM_SIZE in
  let h2 := hash2 key len mod BLOOM_SIZE in
  let h3 := hash3 key len mod BLOOM_SIZE in
  t1 <- bloom_bit h1 ;;
  if t1 then
    t2 <- bloom_bit h2 ;;
    if t2 then bloom_bit h3 else ret false
  else ret false.

(** ** Opening a handle (lines 86-96)

    The results of the three allocation calls are the inputs of [kvm_open]:
    whether [calloc] returned a block for the handle, whether the anonymous
    [mmap] succeeded (its pages read as zero), and what the fall-back [malloc]
    returned ([None] for [NULL], otherwise a block of arbitrary content). *)

Record allocator : Type := mkAllocator {
  calloc_ok : bool;
  mmap_ok : bool;
  malloc_block : option (Z -> byte)
}.

Definition memset (m : Z -> byte) (a : Z) (c : byte) (n : Z) : Z -> byte :=
  fun x => if (a <=? x) && (x <? a + n) then c else m x.

(** What lines 89-90 leave in [db->mem]. *)
Definition backing_region (env : allocator) : option (Z -> byte) :=
  if mmap_ok env then Some (fun _ => Byte.x00) else malloc_block env.

(** [kvm_open] returns a [KVM *]: [Some db] is a pointer to the handle [db],
    [None] would be [NULL].  Writing through a null pointer is [Fault]. *)
Definition kvm_open (env : allocator) : outcome (option KVM) :=
  if calloc_ok env then
    match backing_region env with
    | Some m =>
        Ok (Some (mkKVM (memset m 0 Byte.x00 DATA_OFF) POOL_SIZE
                        BLOOM_OFF BUCKET_OFF DATA_OFF 0))
    | None => Fault
    end
  else Fault.

(** ** Insertion (lines 102-116) *)

Definition klen_of (s : list byte) : Z := u32 (strlen s).

Definition entry_size (klen vlen : Z) : Z :=
  Z.land (usize (sizeof_Entry + klen + vlen + 7)) (usize (Z.lnot 7)).

Definition kvm_put (key value : list byte) : M Z :=
  let klen := klen_of key in
  let vlen := klen_of value in
  let entry_size := entry_size klen vlen in
  wp <- gets write_pos ;;
  sz <- gets mem_size ;;
  if usize (wp + entry_size) >? sz then ret (-1) else
  let bucket := fnv1a key klen mod BUCKET_COUNT in
  bk <- gets buckets ;;
  let e := wp in
  store32 (e + Entry_klen) klen ;;;
  store32 (e + Entry_vlen) vlen ;;;
  head <- load32 (bk + sizeof_uint32_t * bucket) ;;
  store32 (e + Entry_next) head ;;;
  store_bytes (e + Entry_data) (prefix klen key) ;;;
  store_bytes (e + Entry_data + klen) (prefix vlen value) ;;;
  store32 (bk + sizeof_uint32_t * bucket) (u32 wp) ;;;
  bloom_add key klen ;;;
  modify (fun db => set_write_pos (usize (write_pos db + entry_size)) db) ;;;
  modify (fun db => set_count (usize (count db + 1)) db) ;;;
  ret 0.

(** ** Lookup (lines 118-133)

    The result is [None] for [NULL] and otherwise the content of the freshly
    allocated copy (the [vlen] bytes before its terminating zero byte). *)

Fixpoint chain_walk (fuel : nat) (key : list byte) (klen off : Z)
  : M (option (list byte)) :=
  match fuel with
  | O => out_of_fuel
  | S fuel' =>
      if off >=? DATA_OFF then
        let e := off in
        eklen <- load32 (e + Entry_klen) ;;
        same <- (if eklen =? klen
                 then d <- load_bytes (e + Entry_data) klen ;;
                      ret (bytes_eqb d (prefix klen key))
                 else ret false) ;;
        if same then
          evlen <- load32 (e + Entry_vlen) ;;
          eklen' <- load32 (e + Entry_klen) ;;
          v <- load_bytes (e + Entry_data + eklen') evlen ;;
          ret (Some v)
        else
          next <- load32 (e + Entry_next) ;;
          chain_walk fuel' key klen next
      else ret None
  end.

Definition kvm_get (fuel : nat) (key : list byte) : M (option (list byte)) :=
  let klen := klen_of key in
  maybe <- bloom_maybe key klen ;;
  if negb maybe then ret None else
  bk <- gets buckets ;;
  off <- load32 (bk + sizeof_uint32_t * (fnv1a key klen mod BUCKET_COUNT)) ;;
  chain_walk fuel key klen off.

(** ** Running the engine on concrete inputs *)

Definition result {A} (o : outcome (A * KVM)) : outcome A :=
  match o with
  | Ok (a, _) => Ok a
  | Fault => Fault
  | OutOfFuel => OutOfFuel
  end.

Definition good_allocator : allocator := mkAllocator true true None.

Definition fresh : KVM :=
  mkKVM (memset (fun _ => Byte.x00) 0 Byte.x00 DATA_OFF) POOL_SIZE
        BLOOM_OFF BUCKET_OFF DATA_OFF 0.

(** * Definitions used by the statements *)

(** ** C strings *)

(** What [kvm_put] copies out of an argument, and what [kvm_get] compares:
    its first [klen_of] bytes. *)
Definition stored (s : list byte) : list byte := prefix (klen_of s) s.

(** The bytes of a buffer before its first zero byte. *)
Definition c_str (s : list byte) : list byte := prefix (strlen s) s.

Definition nul_free (s : list byte) : bool :=
  forallb (fun b => negb (byte.unsigned b =? 0)) s.

(** The arguments the interface is meant for: C strings, that is buffers
    without zero byte, of a length that the [uint32_t] fields of an entry can
    hold (as is every string that fits in the region). *)
Definition cstring (s : list byte) : bool :=
  nul_free s && (Z.of_nat (length s) <? 2 ^ 32).

(** ** The Bloom bitmap as a function of the memory *)

Definition bloom_addr (h : Z) : Z := BLOOM_OFF + Z.shiftr h 3.
Definition bloom_mask (h : Z) : Z := Z.shiftl 1 (Z.land h 7).

Definition bit_set (m : Z -> byte) (h : Z) : bool :=
  negb (Z.land (read8 m (bloom_addr h)) (bloom_mask h) =? 0).

Definition bloom_set_mem (m : Z -> byte) (h : Z) : Z -> byte :=
  write8 m (bloom_addr h) (Z.lor (read8 m (bloom_addr h)) (bloom_mask h)).

Definition bloom_add_mem (m : Z -> byte) (key : list byte) (len : Z) : Z -> byte :=
  bloom_set_mem
    (bloom_set_mem
       (bloom_set_mem m (fnv1a key len mod BLOOM_SIZE))
       (hash2 key len mod BLOOM_SIZE))
    (hash3 key len mod BLOOM_SIZE).

Definition bloom_test (m : Z -> byte) (key : list byte) (len : Z) : bool :=
  bit_set m (fnv1a key len mod BLOOM_SIZE)
  && bit_set m (hash2 key len mod BLOOM_SIZE)
  && bit_set m (hash3 key len mod BLOOM_SIZE).

(** ** The region after a successful insertion *)

Definition bucket_of (key : list byte) : Z :=
  fnv1a key (klen_of key) mod BUCKET_COUNT.

Definition bucket_addr (b : Z) : Z := BUCKET_OFF + sizeof_uint32_t * b.

Definition entry_mem (m : Z -> byte) (wp : Z) (key value : list byte) : Z -> byte :=
  let m1 := write32 m (wp + Entry_klen) (klen_of key) in
  let m2 := write32 m1 (wp + Entry_vlen) (klen_of value) in
  let m3 := write32 m2 (wp + Entry_next) (read32 m2 (bucket_addr (bucket_of key))) in
  let m4 := write_bytes m3 (wp + Entry_data) (stored key) in
  write_bytes m4 (wp + Entry_data + klen_of key) (stored value).

Definition put_mem (m : Z -> byte) (wp : Z) (key value : list byte) : Z -> byte :=
  bloom_add_mem
    (write32 (entry_mem m wp key value) (bucket_addr (bucket_of key)) (u32 wp))
    key (klen_of key).

Definition put_state (db : KVM) (key value : list byte) : KVM :=
  mkKVM (put_mem (mem db) (write_pos db) key value)
        (mem_size db) (bloom db) (buckets db)
        (usize (write_pos db + entry_size (klen_of key) (klen_of value)))
        (usize (count db + 1)).

(** The bytes between the write cursor and the end of the region. *)
Definition remaining (db : KVM) : Z := mem_size db - write_pos db.

(** ** Operations and histories *)

(** The two arguments of an insertion. *)
Definition args : Type := (list byte * list byte)%type.

Inductive op : Type :=
| Put (key value : list byte)
| Get (fuel : nat) (key : list byte).

Inductive reply : Type :=
| PutReply (r : Z)
| GetReply (v : option (list byte)).

Definition exec (o : op) : M reply :=
  match o with
  | Put key value => r <- kvm_put key value ;; ret (PutReply r)
  | Get fuel key => v <- kvm_get fuel key ;; ret (GetReply v)
  end.

Fixpoint run (os : list op) : M (list reply) :=
  match os with
  | [] => ret []
  | o :: os' => r <- exec o ;; rs <- run os' ;; ret (r :: rs)
  end.

(** The insertions that returned 0, most recent first. *)
Definition log_after (o : op) (r : reply) (log : list args) : list args :=
  match o, r with
  | Put key value, PutReply 0 => (key, value) :: log
  | _, _ => log
  end.

(** [trace db log]: [db] is an open handle, obtained from [kvm_open] by a
    sequence of operations whose successful insertions are [log]. *)
Inductive trace : KVM -> list args -> Prop :=
| trace_open env db :
    kvm_open env = Ok (Some db) -> trace db []
| trace_step db log o r db' :
    trace db log -> exec o db = Ok (r, db') -> trace db' (log_after o r log).

Definition cstrings (log : list args) : bool :=
  forallb (fun kv => cstring (fst kv) && cstring (snd kv)) log.

(** The same of the keys alone. *)
Definition ckeys (log : list args) : bool :=
  forallb (fun kv => cstring (fst kv)) log.

(** The value of the last insertion whose key is [key]. *)
Definition last_put (key : list byte) (log : list args) : option (list byte) :=
  match find (fun kv => bytes_eqb (fst kv) key) log with
  | Some kv => Some (snd kv)
  | None => None
  end.

(** The region has room for at most [MAX_ENTRIES] entries, so a lookup given
    more fuel than that always ends. *)
Definition MAX_ENTRIES : Z := (POOL_SIZE - DATA_OFF) / 16.

Definition fueled (o : op) : bool :=
  match o with
  | Put _ _ => true
  | Get fuel _ => MAX_ENTRIES <? Z.of_nat fuel
  end.

(** A computation that leaves the handle as it found it. *)
Definition readonly {A} (c : M A) : Prop :=
  forall db a db', c db = Ok (a, db') -> db' = db.

(** ** The representation invariant

    A handle is related to the list of the arguments of its successful
    insertions, most recent first. *)

(** The chain that starts at offset [off] holds the entries [l], all of them
    inside the written part [DATA_OFF, wp) of the data zone. *)
Inductive chain (m : Z -> byte) (wp : Z) : Z -> list args -> Prop :=
| chain_nil off :
    off < DATA_OFF -> chain m wp off []
| chain_cons off k v l :
    DATA_OFF <= off ->
    off + sizeof_Entry + klen_of k + klen_of v <= wp ->
    read32 m (off + Entry_klen) = klen_of k ->
    read32 m (off + Entry_vlen) = klen_of v ->
    read_bytes m (off + Entry_data) (Z.to_nat (klen_of k)) = stored k ->
    read_bytes m (off + Entry_data + klen_of k) (Z.to_nat (klen_of v)) = stored v ->
    chain m wp (read32 m (off + Entry_next)) l ->
    chain m wp off ((k, v) :: l).

(** What a walk returns: the stored value of the first entry whose stored key
    is the stored form of the key looked up. *)
Definition same_key (key : list byte) (kv : args) : bool :=
  bytes_eqb (stored (fst kv)) (stored key).

Definition lookup (key : list byte) (l : list args) : option (list byte) :=
  match find (same_key key) l with
  | Some kv => Some (stored (snd kv))
  | None => None
  end.

Definition in_bucket (b : Z) (kv : args) : bool := bucket_of (fst kv) =? b.

Record rep (db : KVM) (log : list args) : Prop := mkRep {
  rep_size : mem_size db = POOL_SIZE;
  rep_bloom : bloom db = BLOOM_OFF;
  rep_buckets : buckets db = BUCKET_OFF;
  rep_wp_lo : DATA_OFF + 16 * Z.of_nat (length log) <= write_pos db;
  rep_wp_hi : write_pos db <= POOL_SIZE;
  rep_wp_align : write_pos db mod 8 = 0;
  rep_count : count db = Z.of_nat (length log);
  rep_chain : forall b, 0 <= b < BUCKET_COUNT ->
      chain (mem db) (write_pos db) (read32 (mem db) (bucket_addr b))
            (filter (in_bucket b) log);
  rep_filter : forall k v, In (k, v) log ->
      bloom_test (mem db) k (klen_of k) = true
}.

(** ** Allocation outcomes *)

(** [kvm_open] has one way to tell its caller that no region was obtained:
    a [NULL] result. *)
Definition reports_allocation_error (r : outcome (option KVM)) : Prop :=
  r = Ok None.

(** Neither [mmap] nor the fall-back [malloc] provides memory. *)
Definition no_memory : allocator := mkAllocator true false None.

(** [mmap] fails and [malloc] returns a block full of 0xff bytes. *)
Definition malloc_only : allocator :=
  mkAllocator true false (Some (fun _ => Byte.xff)).

(** ** Concrete inputs *)

Definition key_a : list byte := [Byte.x61].
Definition key_b : list byte := [Byte.x62].
Definition val_1 : list byte := [Byte.x31].
Definition val_2 : list byte := [Byte.x32].
Definition val_1_nul_2 : list byte := [Byte.x31; Byte.x00; Byte.x32].
Definition key_a_nul_b : list byte := [Byte.x61; Byte.x00; Byte.x62].

(** A key as long as the whole region, and one a byte longer than [uint32_t]
    can count. *)
Definition pool_sized_key : list byte := repeat Byte.x61 (Z.to_nat POOL_SIZE).
Definition oversized_key : list byte := repeat Byte.x61 (Z.to_nat (2 ^ 32 + 1)).

(** The handle after [kvm_put(db, "a", "1")] on a fresh one. *)
Definition db_a1 : KVM := put_state fresh key_a val_1.

(** Three keys that between them set the three Bloom bits of "Aa", which is
    not inserted: "+.a" agrees with it on [fnv1a] modulo [BLOOM_SIZE] (and so
    shares its bucket), "yfiv" on [hash2], "BB" on [hash3]. *)
Definition key_Aa : list byte := [Byte.x41; Byte.x61].
Definition key_fnv : list byte := [Byte.x2b; Byte.x2e; Byte.x61].
Definition key_h2 : list byte := [Byte.x79; Byte.x66; Byte.x69; Byte.x76].
Definition key_BB : list byte := [Byte.x42; Byte.x42].

Definition log_fp : list args :=
  [(key_BB, val_1); (key_h2, val_1); (key_fnv, val_1)].

Definition db_fp : KVM :=
  put_state (put_state (put_state fresh key_fnv val_1) key_h2 val_1) key_BB val_1.

(** The handle after a key of [2^32 + 1] bytes was inserted with "1" on a
    fresh one, and the one after it was inserted with "2" on [db_a1]. *)
Definition db_over : KVM := put_state fresh oversized_key val_1.
Definition db_a_over : KVM := put_state db_a1 oversized_key val_2.

(** "name" and "alice", and the handle after "name" was inserted with
    "alice" on a fresh one. *)
Definition key_name : list byte := [Byte.x6e; Byte.x61; Byte.x6d; Byte.x65].
Definition val_alice : list byte :=
  [Byte.x61; Byte.x6c; Byte.x69; Byte.x63; Byte.x65].
Definition db_name : KVM := put_state fresh key_name val_alice.

(** The handle after "a" was inserted with "1", "b" with "1" and "a" again
    with "2". *)
Definition log_aba : list args :=
  [(key_a, val_2); (key_b, val_1); (key_a, val_1)].
Definition db_aba : KVM :=
  put_state (put_state db_a1 key_b val_1) key_a val_2.

(** * Definitions of the further properties *)

(** ** Space used *)

(** The bytes that the entry of one insertion takes, and those of a history. *)
Definition entry_size_of (kv : args) : Z :=
  entry_size (klen_of (fst kv)) (klen_of (snd kv)).

Definition used (log : list args) : Z :=
  fold_right (fun kv s => entry_size_of kv + s) 0 log.

(** The key of an insertion as the engine stores and compares it. *)
Definition stored_key (kv : args) : list byte := stored (fst kv).

(** ** The workload of [main] (lines 159-164 and 229-260)

    [sprintf] with ["%d"] and ["%08d"] on the loop index, an [int] that is
    never negative there: the decimal digits, most significant first, and
    the same padded with zeros on the left to eight characters.  Ten digits
    are enough for an [int]. *)

Definition digit (d : Z) : byte := byte.of_Z (48 + d).

Fixpoint decimal (fuel : nat) (n : Z) : list byte :=
  match fuel with
  | O => []
  | S fuel' =>
      if n <? 10 then [digit n]
      else decimal fuel' (n / 10) ++ [digit (n mod 10)]
  end.

Definition fmt_d (n : Z) : list byte := decimal 10 n.

Definition fmt_08d (n : Z) : list byte :=
  repeat (digit 0) (8 - length (fmt_d n)) ++ fmt_d n.

(** The value that a string of digits denotes. *)
Definition undecimal (s : list byte) : Z :=
  fold_left (fun a b => 10 * a + (byte.unsigned b - 48)) s 0.

(** ["key_%08d"], ["value_%d_data"] and ["miss_%08d"] (lines 161-163). *)
Definition bench_key (i : Z) : list byte :=
  [Byte.x6b; Byte.x65; Byte.x79; Byte.x5f] ++ fmt_08d i.

Definition bench_val (i : Z) : list byte :=
  [Byte.x76; Byte.x61; Byte.x6c; Byte.x75; Byte.x65; Byte.x5f] ++ fmt_d i
  ++ [Byte.x5f; Byte.x64; Byte.x61; Byte.x74; Byte.x61].

Definition bench_miss (i : Z) : list byte :=
  [Byte.x6d; Byte.x69; Byte.x73; Byte.x73; Byte.x5f] ++ fmt_08d i.

(** The values [0 .. num-1] of a loop index. *)
Definition indices (num : Z) : list Z := map Z.of_nat (seq 0 (Z.to_nat num)).

(** The four loops over the handle (lines 233-260): the writes, the
    sequential reads, the reads at [rand() % N], where [rnd j] is what the
    [j]-th call of [rand] returns, and the reads of the keys that were not
    written.  The return values of [kvm_put] are ignored by [main] and the
    strings returned by [kvm_get] are freed at once. *)
Definition bench_writes (num : Z) : list op :=
  map (fun i => Put (bench_key i) (bench_val i)) (indices num).

Definition bench_seq_reads (num : Z) (fuel : nat) : list op :=
  map (fun i => Get fuel (bench_key i)) (indices num).

Definition bench_rand_reads (num : Z) (fuel : nat) (rnd : nat -> nat) : list op :=
  map (fun j => Get fuel (bench_key (Z.of_nat (rnd j) mod num)))
      (seq 0 (Z.to_nat num)).

Definition bench_miss_reads (num : Z) (fuel : nat) : list op :=
  map (fun i => Get fuel (bench_miss i)) (indices num).

Definition bench_ops (num : Z) (fuel : nat) (rnd : nat -> nat) : list op :=
  bench_writes num ++ bench_seq_reads num fuel
  ++ bench_rand_reads num fuel rnd ++ bench_miss_reads num fuel.

(** What the four loops are answered. *)
Definition bench_replies (num : Z) (rnd : nat -> nat) : list reply :=
  map (fun _ => PutReply 0) (indices num)
  ++ map (fun i => GetReply (Some (bench_val i))) (indices num)
  ++ map (fun j => GetReply (Some (bench_val (Z.of_nat (rnd j) mod num))))
         (seq 0 (Z.to_nat num))
  ++ map (fun _ => GetReply None) (indices num).

(** The pairs that the first loop inserts, in the order of the loop. *)
Definition bench_pairs (num : Z) : list args :=
  map (fun i => (bench_key i, bench_val i)) (indices num).

(** The bytes that the records [0 .. num-1] take: 40 each up to record
    99999, whose value has at most five digits, and 48 each from there up to
    eight digits. *)
Definition bench_used (num : Z) : Z := 40 * num + 8 * Z.max 0 (num - 100000).

(** The largest number of records that fit in the data zone. *)
Definition BENCH_MAX : Z := (POOL_SIZE - DATA_OFF + 8 * 100000) / 48.

(** The default number of records (line 147). *)
Definition DEFAULT_RECORDS : Z := 100000.

(** The number of times the loop of [kvm_get] tests its condition on a chain
    with the entries [l]: one per entry up to the first whose key matches,
    and one more at the end of a chain without a match. *)
Fixpoint walk_steps (key : list byte) (l : list args) : nat :=
  match l with
  | [] => 1
  | kv :: l' => if same_key key kv then 1 else S (walk_steps key l')
  end.

(** Two handles with the same two insertions in opposite orders. *)
Definition db_ab : KVM := put_state (put_state fresh key_a val_1) key_b val_2.
Definition db_ba : KVM := put_state (put_state fresh key_b val_2) key_a val_1.

(** The handle that [kvm_open] returns when [mmap] fails and [malloc]
    returns a block full of 0xff bytes: only the bitmap and the bucket table
    are zeroed (line 91). *)
Definition db_malloc : KVM :=
  mkKVM (memset (fun _ => Byte.xff) 0 Byte.x00 DATA_OFF) POOL_SIZE
        BLOOM_OFF BUCKET_OFF DATA_OFF 0.

(** Two handles with the same cursor and the same bitmap and bucket table. *)
Definition same_meta (db1 db2 : KVM) : Prop :=
  write_pos db1 = write_pos db2
  /\ forall x, 0 <= x < DATA_OFF -> mem db1 x = mem db2 x.

(** * Basic facts *)

(** ** Layout *)

(** The zones: 128 KiB of bitmap, 32 KiB of bucket heads, then the data. *)
Example layout_values :
  BUCKET_OFF = 131072 /\ DATA_OFF = 163840 /\ POOL_SIZE = 67108864
  /\ sizeof_Entry = 12.
Proof. repeat split. Qed.

Ltac layout :=
  change DATA_OFF with 163840 in *;
  change BUCKET_OFF with 131072 in *;
  change BLOOM_OFF with 0 in *;
  change BLOOM_SIZE with 1048576 in *;
  change BUCKET_COUNT with 8192 in *;
  change POOL_SIZE with 67108864 in *;
  change sizeof_uint32_t with 4 in *;
  change sizeof_Entry with 12 in *;
  change Entry_klen with 0 in *;
  change Entry_vlen with 4 in *;
  change Entry_next with 8 in *;
  change Entry_data with 12 in *.

(** ** The embedding on concrete inputs *)

(** The published FNV-1a value of "a", and the offset basis for the empty key. *)
Example fnv1a_values :
  fnv1a key_a 1 = 0xe40c292c /\ fnv1a key_a 0 = 0x811c9dc5.
Proof. split; reflexivity. Qed.

(** A byte above 0x7f enters [hash2] and [hash3] sign-extended. *)
Example hash_of_high_byte :
  hash2 [Byte.xc8] 1 = Z.lxor 0xd60f1c35 0xffffffc8
  /\ hash3 [Byte.xc8] 1 = (0x811c9dc5 * 31 - 56) mod 2 ^ 32.
Proof. split; reflexivity. Qed.

Example strlen_values :
  strlen key_a = 1 /\ strlen val_1_nul_2 = 1 /\ strlen [] = 0.
Proof. repeat split. Qed.

Example entry_size_values :
  entry_size 0 0 = 16 /\ entry_size 1 1 = 16 /\ entry_size 5 0 = 24
  /\ entry_size 12 13 = 40.
Proof. repeat split. Qed.

(** Three insertions and three lookups on a fresh handle. *)
Example engine_run :
  result (run [Put key_a val_1; Put key_b val_1; Put key_a val_2;
               Get 4 key_a; Get 4 key_b; Get 4 val_1] fresh)
  = Ok [PutReply 0; PutReply 0; PutReply 0;
        GetReply (Some val_2); GetReply (Some val_1); GetReply None].
Proof. vm_compute. reflexivity. Qed.

(** ** Machine integers *)

Lemma u32_range z : 0 <= u32 z < 2 ^ 32.
Proof. unfold u32. apply Z.mod_pos_bound. reflexivity. Qed.

Lemma u32_small z : 0 <= z < 2 ^ 32 -> u32 z = z.
Proof. intros. unfold u32. apply Z.mod_small. assumption. Qed.

Lemma usize_small z : 0 <= z < 2 ^ 64 -> usize z = z.
Proof. intros. unfold usize. apply Z.mod_small. assumption. Qed.

Lemma land_align8 x : 0 <= x < 2 ^ 64 -> Z.land x (usize (Z.lnot 7)) = 8 * (x / 8).
Proof.
  intros Hx. unfold usize.
  rewrite <- (Z.land_ones (Z.lnot 7) 64) by lia.
  rewrite Z.land_assoc, (Z.land_comm x), <- Z.land_assoc.
  rewrite (Z.land_ones x 64) by lia.
  rewrite (Z.mod_small x) by assumption.
  rewrite Z.land_comm, <- Z.ldiff_land.
  change 7 with (Z.ones 3).
  rewrite Z.ldiff_ones_r by lia.
  rewrite Z.shiftl_mul_pow2, Z.shiftr_div_pow2 by lia.
  change (2 ^ 3) with 8. lia.
Qed.

Lemma entry_size_eq klen vlen :
  0 <= klen < 2 ^ 32 -> 0 <= vlen < 2 ^ 32 ->
  entry_size klen vlen = 8 * ((sizeof_Entry + klen + vlen + 7) / 8).
Proof.
  intros Hk Hv. unfold entry_size. layout.
  rewrite usize_small by lia. apply land_align8. lia.
Qed.

Lemma entry_size_bounds klen vlen :
  0 <= klen < 2 ^ 32 -> 0 <= vlen < 2 ^ 32 ->
  sizeof_Entry + klen + vlen <= entry_size klen vlen < sizeof_Entry + klen + vlen + 8
  /\ entry_size klen vlen mod 8 = 0.
Proof.
  intros Hk Hv. rewrite entry_size_eq by assumption. layout.
  split.
  - pose proof (Z.div_mod (12 + klen + vlen + 7) 8 ltac:(lia)).
    pose proof (Z.mod_pos_bound (12 + klen + vlen + 7) 8 ltac:(lia)). lia.
  - rewrite Z.mul_comm. apply Z.mod_mul. lia.
Qed.

Lemma entry_size_min klen vlen :
  0 <= klen < 2 ^ 32 -> 0 <= vlen < 2 ^ 32 -> 16 <= entry_size klen vlen.
Proof.
  intros Hk Hv. rewrite entry_size_eq by assumption. layout.
  assert (2 <= (12 + klen + vlen + 7) / 8) by (apply Z.div_le_lower_bound; lia).
  lia.
Qed.

(** ** C strings *)

Lemma strlen_range s : 0 <= strlen s <= Z.of_nat (length s).
Proof.
  induction s as [|b t IH]; cbn [strlen length]; [lia|].
  rewrite Nat2Z.inj_succ. destruct (byte.unsigned b =? 0); lia.
Qed.

Lemma klen_of_range s : 0 <= klen_of s < 2 ^ 32.
Proof. apply u32_range. Qed.

Lemma klen_of_le_strlen s : klen_of s <= strlen s.
Proof.
  unfold klen_of, u32. pose proof (strlen_range s).
  apply Z.mod_le; lia.
Qed.

Lemma klen_of_le_length s : klen_of s <= Z.of_nat (length s).
Proof. pose proof (klen_of_le_strlen s). pose proof (strlen_range s). lia. Qed.

Lemma length_stored s : Z.of_nat (length (stored s)) = klen_of s.
Proof.
  unfold stored, prefix. rewrite length_firstn.
  pose proof (klen_of_range s). pose proof (klen_of_le_length s).
  rewrite Nat.min_l by lia. lia.
Qed.

Lemma length_stored_nat s : length (stored s) = Z.to_nat (klen_of s).
Proof. rewrite <- length_stored. rewrite Nat2Z.id. reflexivity. Qed.

Lemma bytes_eqb_eq a b : bytes_eqb a b = true <-> a = b.
Proof.
  revert b. induction a as [|x a IH]; intros [|y b]; simpl; split; intros H;
    try reflexivity; try discriminate.
  - apply andb_true_iff in H. destruct H as [H1 H2].
    apply Z.eqb_eq, byte.unsigned_inj in H1. apply IH in H2. congruence.
  - inversion H; subst. rewrite Z.eqb_refl. simpl. apply IH. reflexivity.
Qed.

Lemma bytes_eqb_length a b : length a <> length b -> bytes_eqb a b = false.
Proof.
  intros H. destruct (bytes_eqb a b) eqn:E; [|reflexivity].
  apply bytes_eqb_eq in E. subst. contradiction.
Qed.

Lemma strlen_nul_free s : nul_free s = true -> strlen s = Z.of_nat (length s).
Proof.
  induction s as [|b t IH]; cbn [strlen length nul_free forallb]; intros H;
    [reflexivity|].
  apply andb_true_iff in H. destruct H as [Hb Ht].
  destruct (byte.unsigned b =? 0); [discriminate|].
  rewrite Nat2Z.inj_succ, IH by assumption. lia.
Qed.

Lemma strlen_repeat b n :
  byte.unsigned b <> 0 -> strlen (repeat b n) = Z.of_nat n.
Proof.
  intros Hb. induction n as [|n IH]; [reflexivity|].
  rewrite Nat2Z.inj_succ. cbn [repeat strlen].
  destruct (Z.eqb_spec (byte.unsigned b) 0); [contradiction|]. lia.
Qed.

Lemma klen_of_pool_sized_key : klen_of pool_sized_key = POOL_SIZE.
Proof.
  unfold klen_of, pool_sized_key.
  rewrite strlen_repeat by (intros H; discriminate H).
  rewrite Z2Nat.id by (intros H; discriminate H).
  reflexivity.
Qed.

(** Line 103 keeps the lengths in [uint32_t]: [strlen] is cut modulo [2^32],
    which is why [cstring] bounds the length. *)
Lemma klen_of_oversized_key : klen_of oversized_key = 1.
Proof.
  unfold klen_of, oversized_key.
  rewrite strlen_repeat by (intros H; discriminate H).
  rewrite Z2Nat.id by (intros H; discriminate H).
  reflexivity.
Qed.

Lemma stored_whole s :
  nul_free s = true -> Z.of_nat (length s) < 2 ^ 32 -> stored s = s.
Proof.
  intros Hn Hl. unfold stored, prefix, klen_of.
  rewrite strlen_nul_free by assumption.
  rewrite u32_small by lia. rewrite Nat2Z.id. apply firstn_all.
Qed.

(** For strings shorter than [2^32] bytes the entry is sized on the string
    lengths. *)
Lemma entry_size_strlen key value :
  strlen key < 2 ^ 32 -> strlen value < 2 ^ 32 ->
  entry_size (klen_of key) (klen_of value)
  = 8 * ((sizeof_Entry + strlen key + strlen value + 7) / 8).
Proof.
  intros Hk Hv. pose proof (strlen_range key). pose proof (strlen_range value).
  unfold klen_of. rewrite !u32_small by lia. apply entry_size_eq; lia.
Qed.

(** ** Byte memories *)

Lemma read_bytes_length m a n : length (read_bytes m a n) = n.
Proof. revert a. induction n; intros; simpl; [reflexivity|]. rewrite IHn. reflexivity. Qed.

Lemma read_bytes_ext m m' a n :
  (forall x, a <= x < a + Z.of_nat n -> m' x = m x) ->
  read_bytes m' a n = read_bytes m a n.
Proof.
  revert a. induction n as [|n IH]; intros a H; cbn [read_bytes]; [reflexivity|].
  rewrite Nat2Z.inj_succ in H.
  rewrite H by lia. f_equal. apply IH. intros x Hx. apply H. lia.
Qed.

Lemma read_bytes_nth m a l :
  (forall i, (i < length l)%nat -> m (a + Z.of_nat i) = nth i l Byte.x00) ->
  read_bytes m a (length l) = l.
Proof.
  revert a. induction l as [|b t IH]; intros a H; cbn [read_bytes length]; [reflexivity|].
  f_equal.
  - specialize (H 0%nat). cbn [length nth] in H.
    rewrite Z.add_0_r in H. apply H. lia.
  - apply IH. intros i Hi. specialize (H (S i)). cbn [length nth] in H.
    rewrite <- H by lia. f_equal. lia.
Qed.

Lemma write_bytes_out m a l x :
  x < a \/ a + Z.of_nat (length l) <= x -> write_bytes m a l x = m x.
Proof.
  intros H. unfold write_bytes.
  destruct (a <=? x) eqn:E1; destruct (x <? a + Z.of_nat (length l)) eqn:E2;
    try reflexivity.
  apply Z.leb_le in E1. apply Z.ltb_lt in E2. lia.
Qed.

Lemma write_bytes_in m a l i :
  (i < length l)%nat -> write_bytes m a l (a + Z.of_nat i) = nth i l Byte.x00.
Proof.
  intros H. unfold write_bytes.
  replace (a <=? a + Z.of_nat i) with true by (symmetry; apply Z.leb_le; lia).
  replace (a + Z.of_nat i <? a + Z.of_nat (length l)) with true
    by (symmetry; apply Z.ltb_lt; lia).
  cbn [andb]. f_equal. lia.
Qed.

Lemma read_write_bytes m a l : read_bytes (write_bytes m a l) a (length l) = l.
Proof. apply read_bytes_nth. intros i Hi. apply write_bytes_in. assumption. Qed.

Lemma read_write_bytes_other m a l a' n :
  a' + Z.of_nat n <= a \/ a + Z.of_nat (length l) <= a' ->
  read_bytes (write_bytes m a l) a' n = read_bytes m a' n.
Proof.
  intros H. apply read_bytes_ext. intros x Hx. apply write_bytes_out. lia.
Qed.

Lemma read_write32 m a v : read32 (write32 m a v) a = u32 v.
Proof.
  unfold read32, write32.
  change 4%nat with (length (le_split 4 v)) at 2.
  rewrite read_write_bytes. apply le_combine_split.
Qed.

Lemma read32_ext m m' a :
  (forall x, a <= x < a + 4 -> m' x = m x) -> read32 m' a = read32 m a.
Proof. intros H. unfold read32. f_equal. apply read_bytes_ext. exact H. Qed.

Lemma read32_range m a : 0 <= read32 m a < 2 ^ 32.
Proof.
  unfold read32. pose proof (le_combine_bound (read_bytes m a 4)) as H.
  rewrite read_bytes_length in H. exact H.
Qed.

Lemma read8_spec m a : le_combine (read_bytes m a 1) = read8 m a.
Proof. cbn [read_bytes]. apply le_combine_1. Qed.

(** ** Running the monad *)

Lemma in_region_true db a n :
  0 <= a -> a + n <= mem_size db -> in_region db a n = true.
Proof.
  intros H1 H2. unfold in_region.
  apply andb_true_iff. split; [apply Z.leb_le | apply Z.leb_le]; assumption.
Qed.

Lemma bind_ok {A B} (c : M A) (k : A -> M B) db a db' :
  c db = Ok (a, db') -> bind c k db = k a db'.
Proof. intros H. unfold bind. rewrite H. reflexivity. Qed.

Lemma bind_gets {A B} (f : KVM -> A) (k : A -> M B) db :
  bind (gets f) k db = k (f db) db.
Proof. reflexivity. Qed.

Lemma bind_modify {B} f (k : unit -> M B) db : bind (modify f) k db = k tt (f db).
Proof. reflexivity. Qed.

Lemma load_bytes_ok db a n :
  0 <= a -> a + n <= mem_size db ->
  load_bytes a n db = Ok (read_bytes (mem db) a (Z.to_nat n), db).
Proof. intros. unfold load_bytes. rewrite in_region_true by assumption. reflexivity. Qed.

Lemma store_bytes_ok db a l :
  0 <= a -> a + Z.of_nat (length l) <= mem_size db ->
  store_bytes a l db = Ok (tt, set_mem (write_bytes (mem db) a l) db).
Proof. intros. unfold store_bytes. rewrite in_region_true by assumption. reflexivity. Qed.

Lemma load32_ok db a :
  0 <= a -> a + 4 <= mem_size db -> load32 a db = Ok (read32 (mem db) a, db).
Proof.
  intros. unfold load32. erewrite bind_ok by (apply load_bytes_ok; assumption).
  reflexivity.
Qed.

Lemma store32_ok db a v :
  0 <= a -> a + 4 <= mem_size db ->
  store32 a v db = Ok (tt, set_mem (write32 (mem db) a v) db).
Proof. intros. unfold store32. apply store_bytes_ok; assumption. Qed.

Lemma load8_ok db a :
  0 <= a -> a + 1 <= mem_size db -> load8 a db = Ok (read8 (mem db) a, db).
Proof.
  intros. unfold load8. erewrite bind_ok by (apply load_bytes_ok; assumption).
  unfold ret. rewrite <- read8_spec. reflexivity.
Qed.

Lemma store8_ok db a v :
  0 <= a -> a + 1 <= mem_size db ->
  store8 a v db = Ok (tt, set_mem (write8 (mem db) a v) db).
Proof. intros. unfold store8. apply store_bytes_ok; assumption. Qed.

(** ** The Bloom bitmap as a function of the memory *)

Lemma land_bit x i :
  0 <= i -> negb (Z.land x (Z.shiftl 1 i) =? 0) = Z.testbit x i.
Proof.
  intros Hi. rewrite Z.shiftl_1_l.
  destruct (Z.testbit x i) eqn:E.
  - apply negb_true_iff, Z.eqb_neq. intros H0.
    assert (Ht : Z.testbit (Z.land x (2 ^ i)) i = true).
    { rewrite Z.land_spec, E, Z.pow2_bits_true by assumption. reflexivity. }
    rewrite H0, Z.bits_0 in Ht. discriminate.
  - apply negb_false_iff, Z.eqb_eq. apply Z.bits_inj'. intros n Hn.
    rewrite Z.land_spec, Z.bits_0, Z.pow2_bits_eqb by assumption.
    destruct (Z.eqb_spec i n) as [->|_].
    + rewrite E. reflexivity.
    + apply andb_false_r.
Qed.

Lemma land7_range h : 0 <= Z.land h 7 < 8.
Proof.
  change 7 with (Z.ones 3). rewrite Z.land_ones by lia.
  apply Z.mod_pos_bound. reflexivity.
Qed.

Lemma bit_set_testbit m h :
  bit_set m h = Z.testbit (read8 m (bloom_addr h)) (Z.land h 7).
Proof. unfold bit_set, bloom_mask. apply land_bit. apply land7_range. Qed.

Lemma bloom_addr_range h :
  0 <= h < BLOOM_SIZE -> 0 <= bloom_addr h < BUCKET_OFF.
Proof.
  intros H. unfold bloom_addr. layout. rewrite Z.shiftr_div_pow2 by lia.
  change (2 ^ 3) with 8.
  pose proof (Z.div_mod h 8 ltac:(lia)).
  pose proof (Z.mod_pos_bound h 8 ltac:(lia)). lia.
Qed.

Lemma mod_BLOOM_SIZE_range z : 0 <= z mod BLOOM_SIZE < BLOOM_SIZE.
Proof. apply Z.mod_pos_bound. reflexivity. Qed.

Lemma read8_write8_same m a v : read8 (write8 m a v) a = v mod 2 ^ 8.
Proof.
  unfold read8, write8.
  pose proof (write_bytes_in m a [byte.of_Z v] 0) as H.
  cbn [length nth] in H. rewrite Z.add_0_r in H. rewrite H by lia.
  apply byte.unsigned_of_Z.
Qed.

Lemma write8_other m a v x : x <> a -> write8 m a v x = m x.
Proof. intros H. unfold write8. apply write_bytes_out. cbn [length]. lia. Qed.

Lemma bloom_set_mem_other m h x : x <> bloom_addr h -> bloom_set_mem m h x = m x.
Proof. intros H. unfold bloom_set_mem. apply write8_other. assumption. Qed.

Lemma bloom_set_mem_bits m h j :
  0 <= j < 8 ->
  Z.testbit (read8 (bloom_set_mem m h) (bloom_addr h)) j
  = Z.testbit (read8 m (bloom_addr h)) j || Z.testbit (bloom_mask h) j.
Proof.
  intros Hj. unfold bloom_set_mem. rewrite read8_write8_same.
  rewrite Z.mod_pow2_bits_low by lia. apply Z.lor_spec.
Qed.

Lemma bit_set_after_set m h : bit_set (bloom_set_mem m h) h = true.
Proof.
  rewrite bit_set_testbit. pose proof (land7_range h).
  rewrite bloom_set_mem_bits by assumption.
  unfold bloom_mask. rewrite Z.shiftl_1_l, Z.pow2_bits_true by lia.
  apply orb_true_r.
Qed.

Lemma bit_set_mono m h h' :
  bit_set m h' = true -> bit_set (bloom_set_mem m h) h' = true.
Proof.
  rewrite !bit_set_testbit. intros H.
  destruct (Z.eq_dec (bloom_addr h') (bloom_addr h)) as [E|E].
  - rewrite E in *. rewrite bloom_set_mem_bits by apply land7_range.
    rewrite H. reflexivity.
  - unfold read8 in *. rewrite bloom_set_mem_other by assumption. exact H.
Qed.

Lemma bit_set_ext m m' h :
  m' (bloom_addr h) = m (bloom_addr h) -> bit_set m' h = bit_set m h.
Proof. intros H. unfold bit_set, read8. rewrite H. reflexivity. Qed.

Lemma bloom_test_after_add m key len : bloom_test (bloom_add_mem m key len) key len = true.
Proof.
  unfold bloom_test, bloom_add_mem.
  rewrite bit_set_after_set.
  rewrite (bit_set_mono _ _ _ (bit_set_after_set _ _)).
  rewrite (bit_set_mono _ _ _ (bit_set_mono _ _ _ (bit_set_after_set _ _))).
  reflexivity.
Qed.

Lemma bloom_test_mono m key len key' len' :
  bloom_test m key' len' = true ->
  bloom_test (bloom_add_mem m key len) key' len' = true.
Proof.
  unfold bloom_test, bloom_add_mem. intros H.
  apply andb_true_iff in H. destruct H as [H H3].
  apply andb_true_iff in H. destruct H as [H1 H2].
  rewrite !andb_true_iff. repeat split; repeat apply bit_set_mono; assumption.
Qed.

Lemma bloom_test_ext m m' key len :
  (forall x, 0 <= x < BUCKET_OFF -> m' x = m x) ->
  bloom_test m' key len = bloom_test m key len.
Proof.
  intros H. unfold bloom_test.
  rewrite !(bit_set_ext m m')
    by (apply H, bloom_addr_range, mod_BLOOM_SIZE_range).
  reflexivity.
Qed.

Lemma bloom_add_mem_other m key len x :
  BUCKET_OFF <= x -> bloom_add_mem m key len x = m x.
Proof.
  intros H. unfold bloom_add_mem.
  pose proof (bloom_addr_range _ (mod_BLOOM_SIZE_range (fnv1a key len))).
  pose proof (bloom_addr_range _ (mod_BLOOM_SIZE_range (hash2 key len))).
  pose proof (bloom_addr_range _ (mod_BLOOM_SIZE_range (hash3 key len))).
  rewrite !bloom_set_mem_other by lia. reflexivity.
Qed.

(** The monadic Bloom operations against their memory functions. *)

Section BloomRuns.
Variable db : KVM.
Hypothesis Hbloom : bloom db = BLOOM_OFF.
Hypothesis Hsize : BUCKET_OFF <= mem_size db.

Lemma bloom_set_ok h :
  0 <= h < BLOOM_SIZE ->
  bloom_set h db = Ok (tt, set_mem (bloom_set_mem (mem db) h) db).
Proof.
  intros Hh. pose proof (bloom_addr_range h Hh) as Ha.
  unfold bloom_set. rewrite bind_gets, Hbloom.
  fold (bloom_addr h). fold (bloom_mask h).
  erewrite bind_ok by (apply load8_ok; lia).
  apply store8_ok; lia.
Qed.

Lemma bloom_bit_ok h :
  0 <= h < BLOOM_SIZE -> bloom_bit h db = Ok (bit_set (mem db) h, db).
Proof.
  intros Hh. pose proof (bloom_addr_range h Hh) as Ha.
  unfold bloom_bit. rewrite bind_gets, Hbloom.
  fold (bloom_addr h). fold (bloom_mask h).
  erewrite bind_ok by (apply load8_ok; lia).
  reflexivity.
Qed.

Lemma bloom_maybe_ok key len :
  bloom_maybe key len db = Ok (bloom_test (mem db) key len, db).
Proof.
  unfold bloom_maybe, bloom_test.
  erewrite bind_ok by (apply bloom_bit_ok, mod_BLOOM_SIZE_range).
  destruct (bit_set (mem db) (fnv1a key len mod BLOOM_SIZE)); [|reflexivity].
  erewrite bind_ok by (apply bloom_bit_ok, mod_BLOOM_SIZE_range).
  destruct (bit_set (mem db) (hash2 key len mod BLOOM_SIZE)); [|reflexivity].
  rewrite bloom_bit_ok by apply mod_BLOOM_SIZE_range. reflexivity.
Qed.
End BloomRuns.

Lemma bloom_add_ok db key len :
  bloom db = BLOOM_OFF -> BUCKET_OFF <= mem_size db ->
  bloom_add key len db = Ok (tt, set_mem (bloom_add_mem (mem db) key len) db).
Proof.
  intros Hb Hs. unfold bloom_add, bloom_add_mem.
  erewrite bind_ok by (apply bloom_set_ok; auto using mod_BLOOM_SIZE_range).
  erewrite bind_ok by (apply bloom_set_ok; auto using mod_BLOOM_SIZE_range).
  rewrite bloom_set_ok by auto using mod_BLOOM_SIZE_range.
  reflexivity.
Qed.

(** ** The effect of a successful insertion on the region *)

Lemma bucket_of_range key : 0 <= bucket_of key < BUCKET_COUNT.
Proof. apply Z.mod_pos_bound. reflexivity. Qed.

Lemma bucket_addr_range b :
  0 <= b < BUCKET_COUNT -> BUCKET_OFF <= bucket_addr b /\ bucket_addr b + 4 <= DATA_OFF.
Proof. unfold bucket_addr. layout. lia. Qed.

Lemma length_le_split4 v : Z.of_nat (length (le_split 4 v)) = 4.
Proof. rewrite length_le_split. reflexivity. Qed.

Lemma write32_out m a v x : x < a \/ a + 4 <= x -> write32 m a v x = m x.
Proof.
  intros H. unfold write32. apply write_bytes_out.
  rewrite length_le_split4. assumption.
Qed.

Lemma read32_write32_other m a v a' :
  a' + 4 <= a \/ a + 4 <= a' -> read32 (write32 m a v) a' = read32 m a'.
Proof. intros H. apply read32_ext. intros x Hx. apply write32_out. lia. Qed.

Lemma read32_write_bytes_other m a l a' :
  a' + 4 <= a \/ a + Z.of_nat (length l) <= a' ->
  read32 (write_bytes m a l) a' = read32 m a'.
Proof. intros H. apply read32_ext. intros x Hx. apply write_bytes_out. lia. Qed.

(** The guard of line 105. *)
Lemma kvm_put_full db key value :
  usize (write_pos db + entry_size (klen_of key) (klen_of value)) > mem_size db ->
  kvm_put key value db = Ok (-1, db).
Proof.
  intros H. unfold kvm_put. rewrite !bind_gets.
  replace (usize (write_pos db + entry_size (klen_of key) (klen_of value))
           >? mem_size db) with true by (symmetry; apply Z.gtb_lt; lia).
  reflexivity.
Qed.

Lemma kvm_put_ok db key value :
  bloom db = BLOOM_OFF -> buckets db = BUCKET_OFF -> mem_size db = POOL_SIZE ->
  DATA_OFF <= write_pos db ->
  write_pos db + entry_size (klen_of key) (klen_of value) <= mem_size db ->
  kvm_put key value db = Ok (0, put_state db key value).
Proof.
  intros Hbl Hbk Hsz Hwp Hfit.
  pose proof (klen_of_range key) as Hk. pose proof (klen_of_range value) as Hv.
  pose proof (entry_size_bounds _ _ Hk Hv) as [Hes _].
  pose proof (bucket_addr_range _ (bucket_of_range key)) as Hslot.
  pose proof (length_stored key) as Hlk. pose proof (length_stored value) as Hlv.
  unfold kvm_put. rewrite !bind_gets.
  replace (usize (write_pos db + entry_size (klen_of key) (klen_of value))
           >? mem_size db) with false.
  2:{ symmetry. rewrite Z.gtb_ltb. apply Z.ltb_ge. rewrite usize_small; [lia|].
      rewrite Hsz in *. layout. lia. }
  rewrite bind_gets, Hbk. fold (bucket_of key). fold (bucket_addr (bucket_of key)).
  fold (stored key). fold (stored value).
  rewrite Hsz in *. layout.
  erewrite bind_ok by (apply store32_ok; cbn [mem_size set_mem]; lia).
  erewrite bind_ok by (apply store32_ok; cbn [mem_size set_mem]; lia).
  erewrite bind_ok by (apply load32_ok; cbn [mem_size set_mem]; lia).
  erewrite bind_ok by (apply store32_ok; cbn [mem_size set_mem]; lia).
  erewrite bind_ok by (apply store_bytes_ok; cbn [mem_size set_mem]; lia).
  erewrite bind_ok by (apply store_bytes_ok; cbn [mem_size set_mem]; lia).
  erewrite bind_ok by (apply store32_ok; cbn [mem_size set_mem]; lia).
  erewrite bind_ok
    by (apply bloom_add_ok; cbn [mem_size set_mem bloom]; [assumption | layout; lia]).
  rewrite !bind_modify. reflexivity.
Qed.

(** * Chains

    A chain only depends on the written part of the data zone, and the walk
    of [kvm_get] over a chain is the [lookup] in its entries. *)

Lemma chain_frame m wp off l m' wp' :
  chain m wp off l ->
  (forall x, DATA_OFF <= x < wp -> m' x = m x) -> wp <= wp' ->
  chain m' wp' off l.
Proof.
  intros Hc Hm Hw. induction Hc as [off Hoff | off k v l Hlo Hhi Hk Hv Hkd Hvd Hn IH].
  - apply chain_nil. assumption.
  - pose proof (klen_of_range k). pose proof (klen_of_range v).
    layout.
    apply chain_cons; layout; try lia.
    + rewrite <- Hk. apply read32_ext. intros; apply Hm; lia.
    + rewrite <- Hv. apply read32_ext. intros; apply Hm; lia.
    + rewrite <- Hkd. apply read_bytes_ext. intros; apply Hm; lia.
    + rewrite <- Hvd. apply read_bytes_ext. intros; apply Hm; lia.
    + replace (read32 m' (off + 8)) with (read32 m (off + 8)); [exact IH|].
      symmetry. apply read32_ext. intros; apply Hm; lia.
Qed.

Lemma chain_walk_ok db wp off l key :
  chain (mem db) wp off l -> wp <= mem_size db ->
  forall fuel, (length l < fuel)%nat ->
  chain_walk fuel key (klen_of key) off db = Ok (lookup key l, db).
Proof.
  intros Hc Hw. induction Hc as [off Hoff | off k v l Hlo Hhi Hk Hv Hkd Hvd Hn IH];
    intros fuel Hf.
  - destruct fuel as [|fuel]; [inversion Hf|]. cbn [chain_walk].
    replace (off >=? DATA_OFF) with false
      by (symmetry; rewrite Z.geb_leb; apply Z.leb_gt; lia).
    reflexivity.
  - destruct fuel as [|fuel]; [inversion Hf|]. cbn [length] in Hf.
    pose proof (klen_of_range k). pose proof (klen_of_range v).
    pose proof (klen_of_range key).
    cbn [chain_walk].
    replace (off >=? DATA_OFF) with true
      by (symmetry; rewrite Z.geb_leb; apply Z.leb_le; lia).
    layout.
    erewrite bind_ok by (apply load32_ok; lia).
    rewrite Hk. unfold lookup. cbn [find]. unfold same_key at 1. cbn [fst snd].
    destruct (Z.eqb_spec (klen_of k) (klen_of key)) as [E|E].
    + assert (Hkd' : read_bytes (mem db) (off + 12) (Z.to_nat (klen_of key)) = stored k)
        by (rewrite <- E; exact Hkd).
      erewrite bind_ok.
      2:{ erewrite bind_ok by (apply load_bytes_ok; lia). reflexivity. }
      rewrite Hkd'. change (prefix (klen_of key) key) with (stored key).
      destruct (bytes_eqb (stored k) (stored key)).
      * erewrite bind_ok by (apply load32_ok; lia).
        erewrite bind_ok by (apply load32_ok; lia).
        rewrite Hk, Hv.
        erewrite bind_ok by (apply load_bytes_ok; lia).
        rewrite Hvd. reflexivity.
      * erewrite bind_ok by (apply load32_ok; lia).
        apply IH. lia.
    + erewrite bind_ok by reflexivity.
      rewrite bytes_eqb_length.
      2:{ rewrite !length_stored_nat. intros C. apply Z2Nat.inj in C; lia. }
      erewrite bind_ok by (apply load32_ok; lia).
      apply IH. lia.
Qed.

(** ** What an insertion writes, and what it leaves alone *)

Section PutMem.
Variables (m : Z -> byte) (wp : Z) (key value : list byte).
Hypothesis Hwp : DATA_OFF <= wp.

Let slot := bucket_addr (bucket_of key).

Lemma slot_range : BUCKET_OFF <= slot /\ slot + 4 <= DATA_OFF.
Proof. apply bucket_addr_range, bucket_of_range. Qed.

Lemma entry_mem_out x : x < wp -> entry_mem m wp key value x = m x.
Proof.
  intros Hx. unfold entry_mem. cbv zeta.
  pose proof (klen_of_range key). layout.
  rewrite !write_bytes_out by lia. rewrite !write32_out by lia. reflexivity.
Qed.

Lemma entry_mem_klen : read32 (entry_mem m wp key value) (wp + Entry_klen) = klen_of key.
Proof.
  unfold entry_mem. cbv zeta. pose proof (klen_of_range key). layout.
  rewrite !read32_write_bytes_other by lia.
  rewrite !read32_write32_other by lia.
  rewrite read_write32. apply u32_small. assumption.
Qed.

Lemma entry_mem_vlen : read32 (entry_mem m wp key value) (wp + Entry_vlen) = klen_of value.
Proof.
  unfold entry_mem. cbv zeta.
  pose proof (klen_of_range key). pose proof (klen_of_range value). layout.
  rewrite !read32_write_bytes_other by lia.
  rewrite !read32_write32_other by lia.
  rewrite read_write32. apply u32_small. assumption.
Qed.

Lemma entry_mem_next :
  read32 (entry_mem m wp key value) (wp + Entry_next) = read32 m slot.
Proof.
  unfold entry_mem. cbv zeta. fold slot.
  pose proof (klen_of_range key). pose proof slot_range. layout.
  rewrite !read32_write_bytes_other by lia.
  rewrite read_write32.
  rewrite !read32_write32_other by lia.
  apply u32_small. apply read32_range.
Qed.

Lemma entry_mem_key :
  read_bytes (entry_mem m wp key value) (wp + Entry_data) (Z.to_nat (klen_of key))
  = stored key.
Proof.
  unfold entry_mem. cbv zeta.
  pose proof (klen_of_range key). pose proof (length_stored key). layout.
  rewrite read_write_bytes_other by lia.
  rewrite <- length_stored_nat. apply read_write_bytes.
Qed.

Lemma entry_mem_value :
  read_bytes (entry_mem m wp key value) (wp + Entry_data + klen_of key)
             (Z.to_nat (klen_of value))
  = stored value.
Proof.
  unfold entry_mem. cbv zeta.
  rewrite <- length_stored_nat. apply read_write_bytes.
Qed.

Lemma put_mem_data x : DATA_OFF <= x -> put_mem m wp key value x = entry_mem m wp key value x.
Proof.
  intros Hx. unfold put_mem. pose proof slot_range. fold slot. layout.
  rewrite bloom_add_mem_other by (layout; lia).
  apply write32_out. lia.
Qed.

Lemma put_mem_old x : DATA_OFF <= x < wp -> put_mem m wp key value x = m x.
Proof. intros Hx. rewrite put_mem_data by lia. apply entry_mem_out. lia. Qed.

Lemma put_mem_head :
  read32 (put_mem m wp key value) slot = u32 wp.
Proof.
  unfold put_mem. fold slot. pose proof slot_range. layout.
  erewrite read32_ext.
  2:{ intros x Hx. apply bloom_add_mem_other. layout. lia. }
  rewrite read_write32. unfold u32. apply Z.mod_mod. lia.
Qed.

Lemma put_mem_other_head b :
  0 <= b < BUCKET_COUNT -> b <> bucket_of key ->
  read32 (put_mem m wp key value) (bucket_addr b) = read32 m (bucket_addr b).
Proof.
  intros Hb Hne. unfold put_mem. fold slot.
  pose proof slot_range. pose proof (bucket_addr_range b Hb).
  assert (bucket_addr b + 4 <= slot \/ slot + 4 <= bucket_addr b).
  { unfold slot, bucket_addr. layout. lia. }
  layout.
  erewrite read32_ext.
  2:{ intros x Hx. apply bloom_add_mem_other. layout. lia. }
  rewrite read32_write32_other by lia.
  apply read32_ext. intros x Hx. apply entry_mem_out. lia.
Qed.

Lemma put_mem_bloom_new : bloom_test (put_mem m wp key value) key (klen_of key) = true.
Proof. unfold put_mem. apply bloom_test_after_add. Qed.

Lemma put_mem_bloom_old k :
  bloom_test m k (klen_of k) = true ->
  bloom_test (put_mem m wp key value) k (klen_of k) = true.
Proof.
  intros H. unfold put_mem. apply bloom_test_mono.
  rewrite <- H. apply bloom_test_ext. intros x Hx.
  pose proof slot_range. fold slot. layout.
  rewrite write32_out by lia. apply entry_mem_out. lia.
Qed.
End PutMem.

(** ** The invariant holds after [kvm_open] and is kept by [kvm_put] *)

Lemma memset_in m a c n x : a <= x < a + n -> memset m a c n x = c.
Proof.
  intros H. unfold memset.
  replace (a <=? x) with true by (symmetry; apply Z.leb_le; lia).
  replace (x <? a + n) with true by (symmetry; apply Z.ltb_lt; lia).
  reflexivity.
Qed.

Lemma rep_open env db : kvm_open env = Ok (Some db) -> rep db [].
Proof.
  unfold kvm_open. intros H.
  destruct (calloc_ok env); [|discriminate].
  destruct (backing_region env) as [m|]; [|discriminate].
  inversion H; subst db; clear H.
  constructor; cbn [mem_size bloom buckets write_pos count mem length filter];
    try reflexivity; try (layout; lia).
  - intros b Hb. apply chain_nil.
    pose proof (bucket_addr_range b Hb) as [H1 H2]. layout.
    unfold read32. cbn [read_bytes].
    rewrite !memset_in by lia. layout. reflexivity.
  - intros k v [].
Qed.

Lemma find_filter {A} (p q : A -> bool) l :
  (forall x, p x = true -> q x = true) -> find p (filter q l) = find p l.
Proof.
  intros H. induction l as [|x l IH]; cbn [filter find]; [reflexivity|].
  destruct (q x) eqn:Eq; cbn [find].
  - rewrite IH. reflexivity.
  - destruct (p x) eqn:Ep; [|exact IH].
    apply H in Ep. congruence.
Qed.

Lemma stored_fnv1a a b :
  stored a = stored b -> fnv1a a (klen_of a) = fnv1a b (klen_of b).
Proof. unfold fnv1a. intros H. fold (stored a). fold (stored b). rewrite H. reflexivity. Qed.

Lemma stored_hash2 a b :
  stored a = stored b -> hash2 a (klen_of a) = hash2 b (klen_of b).
Proof. unfold hash2. intros H. fold (stored a). fold (stored b). rewrite H. reflexivity. Qed.

Lemma stored_hash3 a b :
  stored a = stored b -> hash3 a (klen_of a) = hash3 b (klen_of b).
Proof. unfold hash3. intros H. fold (stored a). fold (stored b). rewrite H. reflexivity. Qed.

Lemma stored_bucket_of a b : stored a = stored b -> bucket_of a = bucket_of b.
Proof. intros H. unfold bucket_of. rewrite (stored_fnv1a a b H). reflexivity. Qed.

Lemma stored_bloom_test m a b :
  stored a = stored b -> bloom_test m a (klen_of a) = bloom_test m b (klen_of b).
Proof.
  intros H. unfold bloom_test.
  rewrite (stored_fnv1a a b H), (stored_hash2 a b H), (stored_hash3 a b H).
  reflexivity.
Qed.

Lemma lookup_filter key log :
  lookup key (filter (in_bucket (bucket_of key)) log) = lookup key log.
Proof.
  unfold lookup. rewrite find_filter; [reflexivity|].
  intros [k v]. unfold same_key, in_bucket. cbn [fst]. intros H.
  apply bytes_eqb_eq in H. apply Z.eqb_eq. apply stored_bucket_of. assumption.
Qed.

Lemma lookup_In key log v :
  lookup key log = Some v -> exists k v', In (k, v') log /\ stored k = stored key.
Proof.
  unfold lookup. destruct (find (same_key key) log) as [[k v']|] eqn:E; [|discriminate].
  intros _. apply find_some in E. destruct E as [Hin Hk].
  exists k, v'. split; [assumption|]. apply bytes_eqb_eq. exact Hk.
Qed.

(** The lookup of a well-formed handle, in closed form. *)
Lemma kvm_get_ok db log key fuel :
  rep db log -> (length log < fuel)%nat ->
  kvm_get fuel key db = Ok (lookup key log, db).
Proof.
  intros R Hf. unfold kvm_get.
  pose proof (rep_size _ _ R) as Hsz. pose proof (rep_wp_hi _ _ R) as Hhi.
  erewrite bind_ok
    by (apply bloom_maybe_ok; [apply R | rewrite Hsz; layout; lia]).
  destruct (bloom_test (mem db) key (klen_of key)) eqn:Eb; cbn [negb].
  - rewrite bind_gets, (rep_buckets _ _ R).
    fold (bucket_of key). fold (bucket_addr (bucket_of key)).
    pose proof (bucket_addr_range _ (bucket_of_range key)) as Hs.
    erewrite bind_ok by (apply load32_ok; rewrite ?Hsz; layout; lia).
    rewrite <- lookup_filter.
    eapply chain_walk_ok.
    + apply (rep_chain _ _ R). apply bucket_of_range.
    + lia.
    + pose proof (filter_length_le (in_bucket (bucket_of key)) log). lia.
  - destruct (lookup key log) as [v|] eqn:El; [|reflexivity].
    apply lookup_In in El. destruct El as (k & v' & Hin & Hk).
    pose proof (rep_filter _ _ R _ _ Hin) as Ht.
    rewrite (stored_bloom_test _ _ _ Hk) in Ht. congruence.
Qed.

Lemma put_mem_chain_new m wp wp' key value l :
  DATA_OFF <= wp ->
  wp + sizeof_Entry + klen_of key + klen_of value <= wp' ->
  chain m wp (read32 m (bucket_addr (bucket_of key))) l ->
  chain (put_mem m wp key value) wp' wp ((key, value) :: l).
Proof.
  intros Hwp Hfit Hc.
  pose proof (klen_of_range key) as Hk. pose proof (klen_of_range value) as Hv.
  assert (Hd : forall a, wp <= a -> read32 (put_mem m wp key value) a
                                  = read32 (entry_mem m wp key value) a).
  { intros a Ha. apply read32_ext. intros x Hx. apply put_mem_data. lia. }
  assert (Hb : forall a n, wp <= a -> read_bytes (put_mem m wp key value) a n
                                    = read_bytes (entry_mem m wp key value) a n).
  { intros a n Ha. apply read_bytes_ext. intros x Hx. apply put_mem_data. lia. }
  apply chain_cons; try assumption.
  - rewrite Hd by (layout; lia). apply entry_mem_klen.
  - rewrite Hd by (layout; lia). apply entry_mem_vlen.
  - rewrite Hb by (layout; lia). apply entry_mem_key.
  - rewrite Hb by (layout; lia). apply entry_mem_value.
  - rewrite Hd by (layout; lia). rewrite entry_mem_next by assumption.
    apply (chain_frame m wp); [assumption | | layout; lia].
    intros x Hx. apply put_mem_old. assumption.
Qed.

Lemma put_mem_chain_old m wp wp' key value b l :
  DATA_OFF <= wp -> wp <= wp' ->
  0 <= b < BUCKET_COUNT -> b <> bucket_of key ->
  chain m wp (read32 m (bucket_addr b)) l ->
  chain (put_mem m wp key value) wp' (read32 (put_mem m wp key value) (bucket_addr b)) l.
Proof.
  intros Hwp Hle Hb Hne Hc.
  rewrite put_mem_other_head by assumption.
  apply (chain_frame m wp); [assumption | | assumption].
  intros x Hx. apply put_mem_old. assumption.
Qed.

Lemma rep_put db log key value :
  rep db log ->
  write_pos db + entry_size (klen_of key) (klen_of value) <= mem_size db ->
  rep (put_state db key value) ((key, value) :: log).
Proof.
  intros R Hfit.
  pose proof (rep_size _ _ R) as Hsz. pose proof (rep_wp_hi _ _ R) as Hhi.
  pose proof (rep_wp_lo _ _ R) as Hlo. pose proof (rep_count _ _ R) as Hc.
  pose proof (klen_of_range key) as Hk. pose proof (klen_of_range value) as Hv.
  pose proof (entry_size_bounds _ _ Hk Hv) as [Hes _].
  pose proof (entry_size_min _ _ Hk Hv) as Hmin.
  assert (Hwp : DATA_OFF <= write_pos db) by lia.
  unfold put_state.
  rewrite Hsz in Hfit. layout.
  rewrite (usize_small (write_pos db + _)) by lia.
  rewrite (usize_small (count db + 1)) by lia.
  constructor; cbn [mem_size bloom buckets write_pos count mem length];
    try apply R; layout.
  - rewrite Nat2Z.inj_succ. lia.
  - lia.
  - rewrite Z.add_mod, (proj2 (entry_size_bounds _ _ Hk Hv)), (rep_wp_align _ _ R)
      by lia.
    reflexivity.
  - rewrite Nat2Z.inj_succ. lia.
  - intros b Hb. cbn [filter]. unfold in_bucket at 1. cbn [fst].
    destruct (Z.eqb_spec (bucket_of key) b) as [E|E].
    + subst b. rewrite put_mem_head by assumption.
      rewrite u32_small by lia.
      apply put_mem_chain_new; [assumption | layout; lia |].
      apply (rep_chain _ _ R). assumption.
    + apply put_mem_chain_old; try assumption; try lia; try congruence.
      apply (rep_chain _ _ R). assumption.
  - intros k v [Hin | Hin].
    + inversion Hin; subst. apply put_mem_bloom_new.
    + apply put_mem_bloom_old; [assumption|].
      apply (rep_filter _ _ R k v). assumption.
Qed.

(** * Computations that only read *)

Lemma readonly_ret {A} (a : A) : readonly (ret a).
Proof. intros db x db' H. inversion H. reflexivity. Qed.

Lemma readonly_gets {A} (f : KVM -> A) : readonly (gets f).
Proof. intros db x db' H. inversion H. reflexivity. Qed.

Lemma readonly_out_of_fuel {A} : readonly (@out_of_fuel A).
Proof. intros db x db' H. discriminate. Qed.

Lemma readonly_bind {A B} (c : M A) (k : A -> M B) :
  readonly c -> (forall a, readonly (k a)) -> readonly (bind c k).
Proof.
  intros Hc Hk db b db' H. unfold bind in H.
  destruct (c db) as [[a db1]| |] eqn:E; try discriminate.
  apply Hc in E. subst db1. apply (Hk a) in H. exact H.
Qed.

Lemma readonly_load_bytes a n : readonly (load_bytes a n).
Proof.
  intros db x db' H. unfold load_bytes in H.
  destruct (in_region db a n); [|discriminate]. inversion H. reflexivity.
Qed.

Lemma readonly_load32 a : readonly (load32 a).
Proof.
  unfold load32. apply readonly_bind; [apply readonly_load_bytes|].
  intros; apply readonly_ret.
Qed.

Lemma readonly_load8 a : readonly (load8 a).
Proof.
  unfold load8. apply readonly_bind; [apply readonly_load_bytes|].
  intros; apply readonly_ret.
Qed.

Lemma readonly_if {A} (b : bool) (c1 c2 : M A) :
  readonly c1 -> readonly c2 -> readonly (if b then c1 else c2).
Proof. destruct b; auto. Qed.

Create HintDb readonly.
#[local] Hint Resolve readonly_ret readonly_gets readonly_out_of_fuel
  readonly_load_bytes readonly_load32 readonly_load8 : readonly.

Ltac readonly_step :=
  first [ apply readonly_bind; [|intros ?]
        | apply readonly_if
        | solve [auto with readonly] ].

Lemma readonly_bloom_bit h : readonly (bloom_bit h).
Proof. unfold bloom_bit. repeat readonly_step. Qed.

Lemma readonly_bloom_maybe key len : readonly (bloom_maybe key len).
Proof.
  unfold bloom_maybe. cbv zeta.
  repeat first [ apply readonly_bloom_bit | readonly_step ].
Qed.

Lemma readonly_chain_walk fuel key klen : forall off, readonly (chain_walk fuel key klen off).
Proof.
  induction fuel as [|fuel IH]; intros off; cbn [chain_walk].
  - apply readonly_out_of_fuel.
  - cbv zeta. repeat first [ apply IH | readonly_step ].
Qed.

Lemma readonly_kvm_get fuel key : readonly (kvm_get fuel key).
Proof.
  unfold kvm_get. cbv zeta.
  repeat first [ apply readonly_bloom_maybe | apply readonly_chain_walk | readonly_step ].
Qed.

(** * Histories keep the invariant *)

(** The two ways an insertion on a well-formed handle ends. *)
Lemma kvm_put_cases db log key value :
  rep db log ->
  (remaining db < entry_size (klen_of key) (klen_of value)
   /\ kvm_put key value db = Ok (-1, db))
  \/ (entry_size (klen_of key) (klen_of value) <= remaining db
      /\ kvm_put key value db = Ok (0, put_state db key value)).
Proof.
  intros R. unfold remaining.
  pose proof (rep_size _ _ R) as Hsz. pose proof (rep_wp_hi _ _ R) as Hhi.
  pose proof (rep_wp_lo _ _ R) as Hlo.
  pose proof (klen_of_range key) as Hk. pose proof (klen_of_range value) as Hv.
  pose proof (entry_size_bounds _ _ Hk Hv) as [Hes _].
  destruct (Z_lt_le_dec (mem_size db - write_pos db)
                        (entry_size (klen_of key) (klen_of value))) as [Hlt|Hle].
  - left. split; [assumption|]. apply kvm_put_full.
    rewrite usize_small; [lia|]. layout. lia.
  - right. split; [assumption|]. apply kvm_put_ok; try apply R; layout; lia.
Qed.

Lemma exec_rep db log o r db' :
  rep db log -> exec o db = Ok (r, db') -> rep db' (log_after o r log).
Proof.
  intros R H. destruct o as [key value | fuel key]; cbn [exec] in H.
  - destruct (kvm_put_cases db log key value R) as [[Hc E]|[Hc E]];
      rewrite (bind_ok _ _ _ _ _ E) in H; inversion H; subst; cbn [log_after].
    + exact R.
    + apply rep_put; [assumption|]. unfold remaining in Hc. lia.
  - unfold bind in H.
    destruct (kvm_get fuel key db) as [[v db1]| |] eqn:E; try discriminate.
    apply readonly_kvm_get in E. inversion H; subst. exact R.
Qed.

Lemma trace_rep db log : trace db log -> rep db log.
Proof.
  induction 1 as [env db H | db log o r db' _ IH H].
  - eapply rep_open; eassumption.
  - eapply exec_rep; eassumption.
Qed.

Lemma trace_put db log key value db' :
  trace db log -> kvm_put key value db = Ok (0, db') ->
  trace db' ((key, value) :: log).
Proof.
  intros T H. apply (trace_step db log (Put key value) (PutReply 0) db' T).
  cbn [exec]. rewrite (bind_ok _ _ _ _ _ H). reflexivity.
Qed.

Lemma trace_fresh : trace fresh [].
Proof. apply (trace_open good_allocator). reflexivity. Qed.

(** * Properties of the specification *)

(** ** Capacity *)

Lemma remaining_range db log :
  rep db log -> 0 <= remaining db <= POOL_SIZE - DATA_OFF /\ remaining db mod 8 = 0.
Proof.
  intros R. unfold remaining.
  pose proof (rep_wp_lo _ _ R). pose proof (rep_wp_hi _ _ R).
  rewrite (rep_size _ _ R). split; [layout; lia|].
  rewrite Zminus_mod, (rep_wp_align _ _ R). reflexivity.
Qed.

(** When header, key and value fit in the bytes that remain, the 32-bit
    lengths are the string lengths and the aligned entry fits as well. *)
Lemma sufficient_capacity db log key value :
  rep db log ->
  sizeof_Entry + strlen key + strlen value <= remaining db ->
  klen_of key = strlen key /\ klen_of value = strlen value
  /\ entry_size (klen_of key) (klen_of value) <= remaining db.
Proof.
  intros R Hcap. pose proof (remaining_range _ _ R) as [Hr Hal].
  pose proof (strlen_range key). pose proof (strlen_range value).
  layout.
  assert (Hk : klen_of key = strlen key) by (apply u32_small; lia).
  assert (Hv : klen_of value = strlen value) by (apply u32_small; lia).
  rewrite Hk, Hv. split; [reflexivity|]. split; [reflexivity|].
  rewrite entry_size_eq by lia. layout.
  apply Z.mod_divide in Hal; [|lia]. destruct Hal as [q Hq].
  assert ((12 + strlen key + strlen value + 7) / 8 < q + 1)
    by (apply Z.div_lt_upper_bound; lia).
  lia.
Qed.

Lemma lookup_head key value log : lookup key ((key, value) :: log) = Some (stored value).
Proof.
  unfold lookup. cbn [find]. unfold same_key at 1. cbn [fst].
  rewrite (proj2 (bytes_eqb_eq _ _) eq_refl). reflexivity.
Qed.

Lemma fuel_enough db log fuel :
  rep db log -> (Z.to_nat (count db) < fuel)%nat -> (length log < fuel)%nat.
Proof. intros R H. rewrite (rep_count _ _ R), Nat2Z.id in H. exact H. Qed.

(** Insertion followed by lookup, for arbitrary argument buffers. *)
Lemma put_then_get db log key value :
  rep db log ->
  sizeof_Entry + strlen key + strlen value <= remaining db ->
  kvm_put key value db = Ok (0, put_state db key value)
  /\ rep (put_state db key value) ((key, value) :: log)
  /\ forall fuel, (Z.to_nat (count (put_state db key value)) < fuel)%nat ->
       kvm_get fuel key (put_state db key value)
       = Ok (Some (stored value), put_state db key value).
Proof.
  intros R Hcap.
  destruct (sufficient_capacity _ _ _ _ R Hcap) as (_ & _ & Hfit).
  destruct (kvm_put_cases db log key value R) as [[Hc _]|[_ E]]; [lia|].
  assert (R' : rep (put_state db key value) ((key, value) :: log))
    by (apply rep_put; [assumption | unfold remaining in Hfit; lia]).
  split; [assumption|]. split; [assumption|].
  intros fuel Hf. rewrite <- (lookup_head key value log).
  apply kvm_get_ok; [assumption|]. eapply fuel_enough; eassumption.
Qed.

(** The handles of the concrete instances. *)
Lemma fresh_room : sizeof_Entry + strlen key_a + strlen val_1 <= remaining fresh.
Proof. vm_compute. discriminate. Qed.

Lemma put_a1 : kvm_put key_a val_1 fresh = Ok (0, db_a1).
Proof.
  exact (proj1 (put_then_get _ _ _ _ (trace_rep _ _ trace_fresh) fresh_room)).
Qed.

Lemma trace_db_a1 : trace db_a1 [(key_a, val_1)].
Proof. exact (trace_put _ _ _ _ _ trace_fresh put_a1). Qed.

Lemma trace_put_state db log key value :
  trace db log ->
  sizeof_Entry + strlen key + strlen value <= remaining db ->
  trace (put_state db key value) ((key, value) :: log).
Proof.
  intros T Hcap. apply (trace_put db log key value _ T).
  exact (proj1 (put_then_get _ _ _ _ (trace_rep _ _ T) Hcap)).
Qed.

Lemma trace_db_fp : trace db_fp log_fp.
Proof.
  unfold db_fp, log_fp.
  repeat (apply trace_put_state; [|vm_compute; discriminate]).
  exact trace_fresh.
Qed.

(** The filter answers "maybe" for "Aa" on [db_fp], the chain of its bucket
    holds the entry of "+.a", and the lookup returns [NULL]. *)
Example bloom_false_positive :
  result (bloom_maybe key_Aa (klen_of key_Aa) db_fp) = Ok true
  /\ bucket_of key_fnv = bucket_of key_Aa
  /\ DATA_OFF <= read32 (mem db_fp) (bucket_addr (bucket_of key_Aa))
  /\ result (kvm_get 4 key_Aa db_fp) = Ok None.
Proof. repeat split; vm_compute; try reflexivity; discriminate. Qed.

(** ** Keys are compared by their stored bytes *)

Lemma lookup_other key value other log :
  stored other <> stored key ->
  lookup other ((key, value) :: log) = lookup other log.
Proof.
  intros Hne. unfold lookup. cbn [find]. unfold same_key at 1. cbn [fst].
  destruct (bytes_eqb (stored key) (stored other)) eqn:E; [|reflexivity].
  apply bytes_eqb_eq in E. congruence.
Qed.

Lemma lookup_absent key l :
  (forall kv, In kv l -> stored_key kv <> stored key) -> lookup key l = None.
Proof.
  induction l as [|[k v] l IH]; intros H; [reflexivity|].
  rewrite lookup_other.
  - apply IH. intros kv Hin. apply H. right. exact Hin.
  - intros Hs. apply (H (k, v)); [left; reflexivity|].
    unfold stored_key. cbn [fst]. symmetry. exact Hs.
Qed.

Lemma lookup_same key value other log :
  stored other = stored key ->
  lookup other ((key, value) :: log) = Some (stored value).
Proof.
  intros H. unfold lookup. cbn [find]. unfold same_key at 1. cbn [fst].
  rewrite H. rewrite (proj2 (bytes_eqb_eq _ _) eq_refl). reflexivity.
Qed.

Lemma firstn_repeat {A} (b : A) : forall k n,
  (k <= n)%nat -> firstn k (repeat b n) = repeat b k.
Proof.
  induction k as [|k IH]; intros n H; [reflexivity|].
  destruct n as [|n]; [lia|]. cbn [repeat firstn]. f_equal. apply IH. lia.
Qed.

Lemma stored_repeat b n :
  byte.unsigned b <> 0 ->
  stored (repeat b n) = repeat b (Z.to_nat (u32 (Z.of_nat n))).
Proof.
  intros Hb. unfold stored, prefix, klen_of. rewrite strlen_repeat by assumption.
  apply firstn_repeat.
  pose proof (u32_range (Z.of_nat n)). unfold u32 in *.
  pose proof (Z.mod_le (Z.of_nat n) (2 ^ 32) ltac:(lia) ltac:(lia)). lia.
Qed.

(** ** Strings of [2^32] bytes or more

    Line 103 keeps [strlen] in a [uint32_t]: of a key of [2^32 + 1] bytes the
    engine sees the first byte only. *)

Lemma strlen_pool_sized_key : strlen pool_sized_key = POOL_SIZE.
Proof.
  unfold pool_sized_key. rewrite strlen_repeat by (intros H; discriminate H).
  apply Z2Nat.id. intros H; discriminate H.
Qed.

Lemma strlen_oversized_key : strlen oversized_key = 2 ^ 32 + 1.
Proof.
  unfold oversized_key. rewrite strlen_repeat by (intros H; discriminate H).
  apply Z2Nat.id. intros H; discriminate H.
Qed.

Lemma stored_oversized_key : stored oversized_key = key_a.
Proof.
  unfold oversized_key. rewrite stored_repeat by (intros H; discriminate H).
  rewrite Z2Nat.id by (intros H; discriminate H). reflexivity.
Qed.

Lemma oversized_key_differs :
  bytes_eqb oversized_key key_a = false /\ oversized_key <> key_a.
Proof.
  assert (H : length oversized_key <> length key_a).
  { unfold oversized_key. rewrite repeat_length. intros E.
    apply (f_equal Z.of_nat) in E.
    rewrite Z2Nat.id in E by (intros H; discriminate H). discriminate E. }
  split; [apply bytes_eqb_length; exact H|].
  intros E. apply H. rewrite E. reflexivity.
Qed.

Lemma put_fits db log key value :
  trace db log ->
  entry_size (klen_of key) (klen_of value) <= remaining db ->
  kvm_put key value db = Ok (0, put_state db key value)
  /\ trace (put_state db key value) ((key, value) :: log).
Proof.
  intros T Hc. pose proof (trace_rep _ _ T) as R.
  destruct (kvm_put_cases db log key value R) as [[Hc' _]|[_ E]]; [lia|].
  split; [exact E | exact (trace_put _ _ _ _ _ T E)].
Qed.

Lemma put_db_over :
  kvm_put oversized_key val_1 fresh = Ok (0, db_over)
  /\ trace db_over [(oversized_key, val_1)].
Proof.
  apply (put_fits fresh [] oversized_key val_1 trace_fresh).
  rewrite klen_of_oversized_key. vm_compute. discriminate.
Qed.

Lemma put_db_a_over :
  kvm_put oversized_key val_2 db_a1 = Ok (0, db_a_over)
  /\ trace db_a_over [(oversized_key, val_2); (key_a, val_1)].
Proof.
  apply (put_fits db_a1 _ oversized_key val_2 trace_db_a1).
  rewrite klen_of_oversized_key. vm_compute. discriminate.
Qed.

Lemma write_pos_db_over : write_pos db_over = write_pos fresh + 16.
Proof.
  unfold db_over. cbn [put_state write_pos].
  rewrite klen_of_oversized_key. reflexivity.
Qed.

Lemma get_after_oversized db (log : list args) value fuel :
  trace db ((oversized_key, value) :: log) ->
  (length log + 1 < fuel)%nat ->
  kvm_get fuel key_a db = Ok (Some (stored value), db).
Proof.
  intros T Hf.
  rewrite <- (lookup_same oversized_key value key_a log)
    by (rewrite stored_oversized_key; reflexivity).
  apply kvm_get_ok; [exact (trace_rep _ _ T) | cbn [length]; lia].
Qed.

Lemma trace_db_name : trace db_name [(key_name, val_alice)].
Proof.
  unfold db_name. apply trace_put_state; [exact trace_fresh|].
  vm_compute. discriminate.
Qed.

Lemma trace_db_aba : trace db_aba log_aba.
Proof.
  unfold db_aba, log_aba, db_a1.
  repeat (apply trace_put_state; [|vm_compute; discriminate]).
  exact trace_fresh.
Qed.

(** ** Round trip *)

(** C1 (round trip). On every open handle with room for the header, the key
    and the value, [kvm_put] of a key and a C-string value returns 0 and the
    [kvm_get] of that key that follows immediately returns the value. *)
Theorem put_get_round_trip db log key value :
  trace db log ->
  nul_free value = true ->
  sizeof_Entry + strlen key + strlen value <= remaining db ->
  exists db',
    kvm_put key value db = Ok (0, db')
    /\ forall fuel, (Z.to_nat (count db') < fuel)%nat ->
         kvm_get fuel key db' = Ok (Some value, db').
Proof.
  intros T Hn Hcap. pose proof (trace_rep _ _ T) as R.
  destruct (put_then_get _ _ _ _ R Hcap) as (Hput & _ & Hget).
  exists (put_state db key value). split; [exact Hput|].
  intros fuel Hf. rewrite (Hget fuel Hf).
  rewrite stored_whole; [reflexivity | assumption |].
  pose proof (remaining_range _ _ R) as [Hr _].
  pose proof (strlen_range key). rewrite <- strlen_nul_free by assumption.
  layout. lia.
Qed.

Lemma put_get_round_trip_witness :
  trace fresh []
  /\ nul_free val_1 = true
  /\ sizeof_Entry + strlen key_a + strlen val_1 <= remaining fresh
  /\ exists db',
       kvm_put key_a val_1 fresh = Ok (0, db')
       /\ forall fuel, (Z.to_nat (count db') < fuel)%nat ->
            kvm_get fuel key_a db' = Ok (Some val_1, db').
Proof.
  assert (H3 : sizeof_Entry + strlen key_a + strlen val_1 <= remaining fresh)
    by (vm_compute; discriminate).
  split; [exact trace_fresh|]. split; [reflexivity|]. split; [exact H3|].
  exact (put_get_round_trip fresh [] key_a val_1 trace_fresh eq_refl H3).
Defined.

(** ** Capacity exceeded *)

(** C2 (capacity exceeded). On every open handle, an insertion of a key and
    a value shorter than [2^32] bytes whose entry (the header, the key and
    the value, rounded up to a multiple of 8) needs more bytes than remain in
    the region returns -1 and leaves the handle, region included, exactly as
    it was. *)
Theorem put_capacity_exceeded db log key value :
  trace db log ->
  strlen key < 2 ^ 32 -> strlen value < 2 ^ 32 ->
  remaining db < 8 * ((sizeof_Entry + strlen key + strlen value + 7) / 8) ->
  kvm_put key value db = Ok (-1, db).
Proof.
  intros T Hk Hv Hc. pose proof (trace_rep _ _ T) as R.
  rewrite <- (entry_size_strlen key value Hk Hv) in Hc.
  destruct (kvm_put_cases db log key value R) as [[_ E]|[Hle _]]; [exact E | lia].
Qed.

Lemma put_capacity_exceeded_witness :
  trace fresh []
  /\ strlen pool_sized_key < 2 ^ 32 /\ strlen [] < 2 ^ 32
  /\ remaining fresh
     < 8 * ((sizeof_Entry + strlen pool_sized_key + strlen [] + 7) / 8)
  /\ kvm_put pool_sized_key [] fresh = Ok (-1, fresh).
Proof.
  assert (H1 : strlen pool_sized_key < 2 ^ 32)
    by (rewrite strlen_pool_sized_key; reflexivity).
  assert (H2 : strlen [] < 2 ^ 32) by reflexivity.
  assert (H3 : remaining fresh
               < 8 * ((sizeof_Entry + strlen pool_sized_key + strlen [] + 7) / 8))
    by (rewrite strlen_pool_sized_key; reflexivity).
  split; [exact trace_fresh|]. split; [exact H1|]. split; [exact H2|].
  split; [exact H3|].
  exact (put_capacity_exceeded fresh [] pool_sized_key [] trace_fresh H1 H2 H3).
Defined.

(** C2 as stated, for every key, fails on a key of [2^32 + 1] bytes: the
    insertion needs far more bytes than the whole region has, and it returns
    0, moves the cursor by 16 and counts an entry. *)
Lemma put_oversized_key_accepted :
  trace fresh []
  /\ strlen oversized_key = 2 ^ 32 + 1
  /\ remaining fresh < sizeof_Entry + strlen oversized_key + strlen val_1
  /\ kvm_put oversized_key val_1 fresh = Ok (0, db_over)
  /\ write_pos db_over = write_pos fresh + 16
  /\ count db_over = count fresh + 1.
Proof.
  split; [exact trace_fresh|]. split; [exact strlen_oversized_key|].
  split; [rewrite strlen_oversized_key; reflexivity|].
  split; [exact (proj1 put_db_over)|].
  split; [exact write_pos_db_over | reflexivity].
Qed.

(** ** Most recent insertion wins *)

Lemma cstring_stored s : cstring s = true -> stored s = s.
Proof.
  intros H. apply andb_true_iff in H. destruct H as [Hn Hl].
  apply stored_whole; [assumption | apply Z.ltb_lt; assumption].
Qed.

Lemma lookup_last_put key log :
  cstrings log = true -> cstring key = true -> lookup key log = last_put key log.
Proof.
  intros Hl Hk. unfold lookup, last_put.
  induction log as [|[k v] log IH]; cbn [find]; [reflexivity|].
  cbn [cstrings forallb fst snd] in Hl.
  apply andb_true_iff in Hl. destruct Hl as [Hkv Hl].
  apply andb_true_iff in Hkv. destruct Hkv as [Hck Hcv].
  unfold same_key at 1. cbn [fst snd].
  rewrite (cstring_stored k Hck), (cstring_stored key Hk).
  destruct (bytes_eqb k key).
  - cbn [snd]. rewrite (cstring_stored v Hcv). reflexivity.
  - apply IH. exact Hl.
Qed.

Lemma remaining_put_state db log key value :
  rep db log ->
  entry_size (klen_of key) (klen_of value) <= remaining db ->
  remaining (put_state db key value)
  = remaining db - entry_size (klen_of key) (klen_of value).
Proof.
  intros R H. unfold remaining in *. cbn [put_state mem_size write_pos].
  pose proof (rep_wp_lo _ _ R). pose proof (rep_wp_hi _ _ R).
  pose proof (entry_size_min _ _ (klen_of_range key) (klen_of_range value)).
  rewrite (rep_size _ _ R) in *. layout.
  rewrite usize_small by lia. lia.
Qed.

(** C3 (head wins). On every open handle whose insertions were made with C
    strings shorter than [2^32] bytes, [kvm_get] of such a string returns the
    value of the last successful [kvm_put] of that key; and on every open
    handle with room for two entries, inserting "a" with "1", then "a" with
    "2", makes the lookup of "a" return "2". *)
Theorem get_returns_last_put db log :
  trace db log ->
  (cstrings log = true ->
   forall key fuel, cstring key = true -> (Z.to_nat (count db) < fuel)%nat ->
     kvm_get fuel key db = Ok (last_put key log, db))
  /\ (32 <= remaining db ->
      exists db1 db2,
        kvm_put key_a val_1 db = Ok (0, db1)
        /\ kvm_put key_a val_2 db1 = Ok (0, db2)
        /\ forall fuel, (Z.to_nat (count db2) < fuel)%nat ->
             kvm_get fuel key_a db2 = Ok (Some val_2, db2)).
Proof.
  intros T. pose proof (trace_rep _ _ T) as R. split.
  - intros Hl key fuel Hk Hf.
    rewrite <- lookup_last_put by assumption.
    apply kvm_get_ok; [assumption|]. eapply fuel_enough; eassumption.
  - intros Hcap.
    assert (E : entry_size (klen_of key_a) (klen_of val_1) = 16) by reflexivity.
    assert (H1 : sizeof_Entry + strlen key_a + strlen val_1 <= remaining db)
      by (change (sizeof_Entry + strlen key_a + strlen val_1) with 14; lia).
    destruct (put_then_get _ _ _ _ R H1) as (Hput1 & R1 & _).
    assert (H2 : sizeof_Entry + strlen key_a + strlen val_2
                 <= remaining (put_state db key_a val_1)).
    { rewrite (remaining_put_state _ _ _ _ R) by (rewrite E; lia).
      rewrite E. change (sizeof_Entry + strlen key_a + strlen val_2) with 14. lia. }
    destruct (put_then_get _ _ _ _ R1 H2) as (Hput2 & _ & Hget).
    eexists. eexists. split; [exact Hput1|]. split; [exact Hput2|].
    exact Hget.
Qed.

Lemma get_returns_last_put_witness :
  trace db_aba log_aba
  /\ cstrings log_aba = true /\ cstring key_a = true
  /\ (Z.to_nat (count db_aba) < 4)%nat
  /\ 32 <= remaining db_aba
  /\ last_put key_a log_aba = Some val_2
  /\ kvm_get 4 key_a db_aba = Ok (Some val_2, db_aba)
  /\ exists db1 db2,
       kvm_put key_a val_1 db_aba = Ok (0, db1)
       /\ kvm_put key_a val_2 db1 = Ok (0, db2)
       /\ forall fuel, (Z.to_nat (count db2) < fuel)%nat ->
            kvm_get fuel key_a db2 = Ok (Some val_2, db2).
Proof.
  assert (H1 : (Z.to_nat (count db_aba) < 4)%nat) by (vm_compute; lia).
  assert (H2 : 32 <= remaining db_aba) by (vm_compute; discriminate).
  split; [exact trace_db_aba|]. split; [reflexivity|]. split; [reflexivity|].
  split; [exact H1|]. split; [exact H2|]. split; [reflexivity|].
  split.
  - exact (proj1 (get_returns_last_put db_aba log_aba trace_db_aba)
                 eq_refl key_a 4%nat eq_refl H1).
  - exact (proj2 (get_returns_last_put db_aba log_aba trace_db_aba) H2).
Defined.

(** C3 as stated, for every sequence of successful insertions, fails when a
    key of [2^32 + 1] bytes follows: the last insertion whose key is "a" had
    the value "1", and the lookup of "a" returns the "2" of the long key. *)
Lemma oversized_put_shadows_key :
  trace db_a_over [(oversized_key, val_2); (key_a, val_1)]
  /\ last_put key_a [(oversized_key, val_2); (key_a, val_1)] = Some val_1
  /\ kvm_get 3 key_a db_a_over = Ok (Some val_2, db_a_over).
Proof.
  split; [exact (proj2 put_db_a_over)|]. split.
  - unfold last_put. cbn [find fst].
    rewrite (proj1 oversized_key_differs). reflexivity.
  - apply (get_after_oversized db_a_over [(key_a, val_1)] val_2 3
                               (proj2 put_db_a_over)).
    cbn [length]. lia.
Qed.

(** ** Bloom filter *)

Lemma get_walks db log key fuel :
  rep db log ->
  bloom_test (mem db) key (klen_of key) = true ->
  kvm_get fuel key db
  = chain_walk fuel key (klen_of key)
               (read32 (mem db) (bucket_addr (bucket_of key))) db.
Proof.
  intros R Ht. unfold kvm_get.
  pose proof (rep_size _ _ R) as Hsz.
  erewrite bind_ok
    by (apply bloom_maybe_ok; [apply R | rewrite Hsz; layout; lia]).
  rewrite Ht. cbn [negb]. rewrite bind_gets, (rep_buckets _ _ R).
  fold (bucket_of key). fold (bucket_addr (bucket_of key)).
  pose proof (bucket_addr_range _ (bucket_of_range key)) as Hs.
  erewrite bind_ok by (apply load32_ok; rewrite ?Hsz; layout; lia).
  reflexivity.
Qed.

(** C4 (no false negative). On every open handle, for every key that was
    passed to a successful [kvm_put], [bloom_maybe] returns true, and
    [kvm_get] of that key goes on to walk the chain of the key's bucket. *)
Theorem bloom_no_false_negative db log key :
  trace db log ->
  In key (map fst log) ->
  bloom_maybe key (klen_of key) db = Ok (true, db)
  /\ forall fuel,
       kvm_get fuel key db
       = chain_walk fuel key (klen_of key)
                    (read32 (mem db) (bucket_addr (bucket_of key))) db.
Proof.
  intros T Hin. pose proof (trace_rep _ _ T) as R.
  apply in_map_iff in Hin. destruct Hin as ([k v] & Hk & Hin).
  cbn [fst] in Hk. subst k.
  pose proof (rep_filter _ _ R _ _ Hin) as Ht.
  split.
  - rewrite bloom_maybe_ok; [rewrite Ht; reflexivity | apply R |].
    rewrite (rep_size _ _ R). layout. lia.
  - intros fuel. apply (get_walks db log); assumption.
Qed.

Lemma bloom_no_false_negative_witness :
  trace db_a1 [(key_a, val_1)]
  /\ In key_a (map fst [(key_a, val_1)])
  /\ bloom_maybe key_a (klen_of key_a) db_a1 = Ok (true, db_a1)
  /\ forall fuel,
       kvm_get fuel key_a db_a1
       = chain_walk fuel key_a (klen_of key_a)
                    (read32 (mem db_a1) (bucket_addr (bucket_of key_a))) db_a1.
Proof.
  assert (H : In key_a (map fst [(key_a, val_1)])) by (left; reflexivity).
  split; [exact trace_db_a1|]. split; [exact H|].
  exact (bloom_no_false_negative db_a1 [(key_a, val_1)] key_a trace_db_a1 H).
Defined.

(** ** Misses *)

(** C5 (miss path). On every open handle whose inserted keys are C strings
    shorter than [2^32] bytes, for every such key that was never inserted,
    the walk of the key's bucket chain finds no entry and [kvm_get] returns
    [NULL], whatever the Bloom filter answers. *)
Theorem get_never_inserted db log key fuel :
  trace db log ->
  ckeys log = true -> cstring key = true ->
  ~ In key (map fst log) ->
  (Z.to_nat (count db) < fuel)%nat ->
  kvm_get fuel key db = Ok (None, db)
  /\ chain_walk fuel key (klen_of key)
                (read32 (mem db) (bucket_addr (bucket_of key))) db
     = Ok (None, db).
Proof.
  intros T Hl Hk Hnot Hf. pose proof (trace_rep _ _ T) as R.
  pose proof (fuel_enough _ _ _ R Hf) as Hf'.
  assert (Hnone : lookup key log = None).
  { apply lookup_absent. intros [k v] Hin. unfold stored_key. cbn [fst].
    unfold ckeys in Hl. rewrite forallb_forall in Hl.
    pose proof (Hl _ Hin) as Hck. cbn [fst] in Hck.
    rewrite (cstring_stored k Hck), (cstring_stored key Hk).
    intros E. apply Hnot. subst k. apply (in_map fst) in Hin. exact Hin. }
  split.
  - rewrite <- Hnone. apply kvm_get_ok; assumption.
  - rewrite <- Hnone, <- lookup_filter.
    eapply chain_walk_ok.
    + apply (rep_chain _ _ R). apply bucket_of_range.
    + rewrite (rep_size _ _ R). apply (rep_wp_hi _ _ R).
    + pose proof (filter_length_le (in_bucket (bucket_of key)) log). lia.
Qed.

Lemma get_never_inserted_witness :
  trace db_fp log_fp
  /\ ckeys log_fp = true /\ cstring key_Aa = true
  /\ ~ In key_Aa (map fst log_fp)
  /\ (Z.to_nat (count db_fp) < 4)%nat
  /\ result (bloom_maybe key_Aa (klen_of key_Aa) db_fp) = Ok true
  /\ kvm_get 4 key_Aa db_fp = Ok (None, db_fp)
  /\ chain_walk 4 key_Aa (klen_of key_Aa)
                (read32 (mem db_fp) (bucket_addr (bucket_of key_Aa))) db_fp
     = Ok (None, db_fp).
Proof.
  assert (H1 : ~ In key_Aa (map fst log_fp)).
  { intros [H|[H|[H|[]]]]; discriminate H. }
  assert (H2 : (Z.to_nat (count db_fp) < 4)%nat) by (vm_compute; lia).
  split; [exact trace_db_fp|]. split; [reflexivity|]. split; [reflexivity|].
  split; [exact H1|]. split; [exact H2|].
  split; [exact (proj1 bloom_false_positive)|].
  exact (get_never_inserted db_fp log_fp key_Aa 4
           trace_db_fp eq_refl eq_refl H1 H2).
Defined.

(** C5 as stated, for every key never passed to [kvm_put], fails once a key
    of [2^32 + 1] bytes was inserted: "a" was never inserted and its lookup
    returns the value of the long key. *)
Lemma get_finds_key_never_put :
  trace db_over [(oversized_key, val_1)]
  /\ ~ In key_a (map fst [(oversized_key, val_1)])
  /\ kvm_get 2 key_a db_over = Ok (Some val_1, db_over).
Proof.
  split; [exact (proj2 put_db_over)|]. split.
  - cbn [map fst In]. intros [H|[]].
    exact (proj2 oversized_key_differs H).
  - apply (get_after_oversized db_over [] val_1 2 (proj2 put_db_over)).
    cbn [length]. lia.
Qed.

(** ** The write cursor *)

Lemma exec_write_pos db log o r db' :
  rep db log -> exec o db = Ok (r, db') ->
  write_pos db <= write_pos db' /\ mem_size db' = mem_size db.
Proof.
  intros R H. destruct o as [key value | fuel key]; cbn [exec] in H.
  - destruct (kvm_put_cases db log key value R) as [[Hc E]|[Hc E]];
      rewrite (bind_ok _ _ _ _ _ E) in H; inversion H; subst.
    + split; [lia | reflexivity].
    + pose proof (remaining_put_state _ _ key value R Hc) as Hr.
      pose proof (entry_size_min _ _ (klen_of_range key) (klen_of_range value)).
      unfold remaining in Hr. cbn [put_state mem_size] in *. split; [lia | reflexivity].
  - unfold bind in H.
    destruct (kvm_get fuel key db) as [[v db1]| |] eqn:E; try discriminate.
    apply readonly_kvm_get in E. inversion H; subst. split; [lia | reflexivity].
Qed.

Lemma run_write_pos os : forall db log rs db',
  rep db log -> run os db = Ok (rs, db') ->
  write_pos db <= write_pos db' <= mem_size db' /\ mem_size db' = mem_size db.
Proof.
  induction os as [|o os IH]; intros db log rs db' R H; cbn [run] in H.
  - inversion H; subst. pose proof (rep_wp_hi _ _ R).
    rewrite (rep_size _ _ R). split; [lia | reflexivity].
  - unfold bind at 1 in H.
    destruct (exec o db) as [[r db1]| |] eqn:E; try discriminate.
    unfold bind in H.
    destruct (run os db1) as [[rs1 db2]| |] eqn:E2; try discriminate.
    inversion H; subst.
    pose proof (exec_write_pos _ _ _ _ _ R E) as [H1 H2].
    pose proof (IH _ _ _ _ (exec_rep _ _ _ _ _ R E) E2) as [H3 H4].
    split; [lia | congruence].
Qed.

Lemma rep_length db log : rep db log -> Z.of_nat (length log) <= MAX_ENTRIES.
Proof.
  intros R. pose proof (rep_wp_lo _ _ R). pose proof (rep_wp_hi _ _ R).
  unfold MAX_ENTRIES. apply Z.div_le_lower_bound; layout; lia.
Qed.

Lemma exec_total db log o :
  rep db log -> fueled o = true -> exists r db', exec o db = Ok (r, db').
Proof.
  intros R Hf. destruct o as [key value | fuel key]; cbn [exec].
  - destruct (kvm_put_cases db log key value R) as [[_ E]|[_ E]];
      rewrite (bind_ok _ _ _ _ _ E); eexists; eexists; reflexivity.
  - cbn [fueled] in Hf. apply Z.ltb_lt in Hf. pose proof (rep_length _ _ R).
    erewrite bind_ok by (apply (kvm_get_ok db log); [assumption | lia]).
    eexists; eexists; reflexivity.
Qed.

Lemma run_total os : forall db log,
  rep db log -> forallb fueled os = true -> exists rs db', run os db = Ok (rs, db').
Proof.
  induction os as [|o os IH]; intros db log R Hf; cbn [run].
  - eexists; eexists; reflexivity.
  - cbn [forallb] in Hf. apply andb_true_iff in Hf. destruct Hf as [Ho Hos].
    destruct (exec_total db log o R Ho) as (r & db1 & E).
    destruct (IH db1 _ (exec_rep _ _ _ _ _ R E) Hos) as (rs & db2 & E2).
    rewrite (bind_ok _ _ _ _ _ E), (bind_ok _ _ _ _ _ E2).
    eexists; eexists; reflexivity.
Qed.

(** C6 (cursor). On every open handle the write cursor lies between the start
    of the data zone and the size of the region; every sequence of operations
    ends (given lookups enough fuel) and leaves the cursor where it was or
    further, never beyond the size of the region; and an insertion that would
    move it beyond returns -1 with the handle unchanged. *)
Theorem write_pos_monotone_bounded db log :
  trace db log ->
  DATA_OFF <= write_pos db <= mem_size db
  /\ (forall os, forallb fueled os = true ->
        exists rs db', run os db = Ok (rs, db'))
  /\ (forall os rs db', run os db = Ok (rs, db') ->
        write_pos db <= write_pos db' <= mem_size db'
        /\ mem_size db' = mem_size db)
  /\ (forall key value,
        mem_size db < write_pos db + entry_size (klen_of key) (klen_of value) ->
        kvm_put key value db = Ok (-1, db)).
Proof.
  intros T. pose proof (trace_rep _ _ T) as R.
  split; [|split; [|split]].
  - pose proof (rep_wp_lo _ _ R). pose proof (rep_wp_hi _ _ R).
    rewrite (rep_size _ _ R). lia.
  - intros os Hf. apply (run_total os db log); assumption.
  - intros os rs db' H. apply (run_write_pos os db log rs db'); assumption.
  - intros key value H.
    destruct (kvm_put_cases db log key value R) as [[_ E]|[Hle _]]; [exact E|].
    unfold remaining in Hle. lia.
Qed.

Lemma write_pos_monotone_bounded_witness :
  trace fresh []
  /\ DATA_OFF <= write_pos fresh <= mem_size fresh
  /\ (forall os, forallb fueled os = true ->
        exists rs db', run os fresh = Ok (rs, db'))
  /\ (forall os rs db', run os fresh = Ok (rs, db') ->
        write_pos fresh <= write_pos db' <= mem_size db'
        /\ mem_size db' = mem_size fresh)
  /\ (forall key value,
        mem_size fresh < write_pos fresh + entry_size (klen_of key) (klen_of value) ->
        kvm_put key value fresh = Ok (-1, fresh)).
Proof.
  split; [exact trace_fresh|].
  exact (write_pos_monotone_bounded fresh [] trace_fresh).
Defined.

(** ** Entry layout *)

(** The entry a successful insertion leaves at the former cursor. *)
Lemma put_state_entry db log key value :
  rep db log ->
  entry_size (klen_of key) (klen_of value) <= remaining db ->
  read32 (mem (put_state db key value)) (write_pos db + Entry_klen) = klen_of key
  /\ read32 (mem (put_state db key value)) (write_pos db + Entry_vlen) = klen_of value
  /\ read32 (mem (put_state db key value)) (write_pos db + Entry_next)
     = read32 (mem db) (bucket_addr (bucket_of key))
  /\ read_bytes (mem (put_state db key value)) (write_pos db + Entry_data)
                (Z.to_nat (klen_of key))
     = stored key
  /\ read_bytes (mem (put_state db key value))
                (write_pos db + Entry_data + klen_of key)
                (Z.to_nat (klen_of value))
     = stored value
  /\ read32 (mem (put_state db key value)) (bucket_addr (bucket_of key))
     = write_pos db.
Proof.
  intros R Hc.
  pose proof (rep_wp_lo _ _ R) as Hlo. pose proof (rep_wp_hi _ _ R) as Hhi.
  assert (Hwp : DATA_OFF <= write_pos db) by lia.
  pose proof (rep_put _ _ key value R ltac:(unfold remaining in Hc; lia)) as R'.
  pose proof (rep_chain _ _ R' (bucket_of key) (bucket_of_range key)) as Hch.
  cbn [filter] in Hch. unfold in_bucket at 1 in Hch. cbn [fst] in Hch.
  rewrite Z.eqb_refl in Hch.
  assert (Hhead : read32 (mem (put_state db key value)) (bucket_addr (bucket_of key))
                  = write_pos db).
  { cbn [put_state mem]. rewrite put_mem_head by assumption.
    apply u32_small. layout. lia. }
  rewrite Hhead in Hch. inversion Hch; subst.
  repeat match goal with |- _ /\ _ => split end; try assumption.
  cbn [put_state mem].
  erewrite read32_ext by (intros x Hx; apply put_mem_data; layout; lia).
  apply entry_mem_next. assumption.
Qed.

(** C7 (entry size and place). On every open handle, a [kvm_put] of a key
    and a value shorter than [2^32] bytes that returns 0 advances the write
    cursor by [sizeof(Entry)] plus the length of the key plus the length of
    the value, rounded up to a multiple of 8, and the entry (the two lengths,
    the link to the former head of the bucket, the bytes of the key, the
    bytes of the value) lies at the offset the cursor had before, which is
    the new head of the bucket. *)
Theorem put_advances_cursor db log key value db' :
  trace db log ->
  strlen key < 2 ^ 32 -> strlen value < 2 ^ 32 ->
  kvm_put key value db = Ok (0, db') ->
  write_pos db'
  = write_pos db + 8 * ((sizeof_Entry + strlen key + strlen value + 7) / 8)
  /\ sizeof_Entry + strlen key + strlen value
     <= 8 * ((sizeof_Entry + strlen key + strlen value + 7) / 8)
     < sizeof_Entry + strlen key + strlen value + 8
  /\ read32 (mem db') (write_pos db + Entry_klen) = strlen key
  /\ read32 (mem db') (write_pos db + Entry_vlen) = strlen value
  /\ read32 (mem db') (write_pos db + Entry_next)
     = read32 (mem db) (bucket_addr (bucket_of key))
  /\ read_bytes (mem db') (write_pos db + Entry_data) (Z.to_nat (strlen key))
     = c_str key
  /\ read_bytes (mem db') (write_pos db + Entry_data + strlen key)
                (Z.to_nat (strlen value))
     = c_str value
  /\ read32 (mem db') (bucket_addr (bucket_of key)) = write_pos db.
Proof.
  intros T Hsk Hsv H. pose proof (trace_rep _ _ T) as R.
  pose proof (klen_of_range key) as Hk. pose proof (klen_of_range value) as Hv.
  pose proof (strlen_range key) as Hrk. pose proof (strlen_range value) as Hrv.
  assert (Ek : klen_of key = strlen key) by (apply u32_small; lia).
  assert (Ev : klen_of value = strlen value) by (apply u32_small; lia).
  destruct (kvm_put_cases db log key value R) as [[_ E]|[Hc E]];
    rewrite E in H; inversion H; subst db'; clear H.
  pose proof (remaining_put_state _ _ key value R Hc) as Hr.
  destruct (put_state_entry db log key value R Hc)
    as (F1 & F2 & F3 & F4 & F5 & F6).
  pose proof (entry_size_bounds _ _ Hk Hv) as [Hb _].
  unfold stored in F4, F5.
  rewrite (entry_size_strlen key value Hsk Hsv) in Hc, Hr, Hb.
  rewrite Ek, Ev in *.
  repeat match goal with |- _ /\ _ => split end; try assumption; try lia.
  unfold remaining in Hr. cbn [put_state mem_size] in Hr. lia.
Qed.

Lemma put_advances_cursor_witness :
  trace fresh []
  /\ strlen key_name < 2 ^ 32 /\ strlen val_alice < 2 ^ 32
  /\ kvm_put key_name val_alice fresh = Ok (0, db_name)
  /\ write_pos db_name = write_pos fresh + 24
  /\ read32 (mem db_name) (write_pos fresh + Entry_klen) = 4
  /\ read32 (mem db_name) (write_pos fresh + Entry_vlen) = 5
  /\ read32 (mem db_name) (write_pos fresh + Entry_next) = 0
  /\ read_bytes (mem db_name) (write_pos fresh + Entry_data) 4 = key_name
  /\ read_bytes (mem db_name) (write_pos fresh + Entry_data + 4) 5 = val_alice
  /\ read32 (mem db_name) (bucket_addr (bucket_of key_name)) = write_pos fresh.
Proof.
  assert (H1 : strlen key_name < 2 ^ 32) by reflexivity.
  assert (H2 : strlen val_alice < 2 ^ 32) by reflexivity.
  assert (H3 : kvm_put key_name val_alice fresh = Ok (0, db_name)).
  { apply (put_fits fresh [] key_name val_alice trace_fresh).
    vm_compute. discriminate. }
  pose proof (put_advances_cursor fresh [] key_name val_alice db_name
                                  trace_fresh H1 H2 H3)
    as (G1 & _ & G3 & G4 & G5 & G6 & G7 & G8).
  split; [exact trace_fresh|]. split; [exact H1|]. split; [exact H2|].
  split; [exact H3|]. split; [exact G1|]. split; [exact G3|].
  split; [exact G4|].
  split; [rewrite G5; vm_compute; reflexivity|].
  split; [exact G6|]. split; [exact G7 | exact G8].
Defined.

(** C7 as stated, for every key of length [klen], fails on a key of
    [2^32 + 1] bytes: with the value "1" the header, the key and the value
    rounded up are 4294967312 bytes, and the cursor advances by 16. *)
Lemma oversized_key_advances_16 :
  trace fresh []
  /\ kvm_put oversized_key val_1 fresh = Ok (0, db_over)
  /\ strlen oversized_key = 2 ^ 32 + 1 /\ strlen val_1 = 1
  /\ 8 * ((sizeof_Entry + strlen oversized_key + strlen val_1 + 7) / 8)
     = 4294967312
  /\ write_pos db_over = write_pos fresh + 16.
Proof.
  split; [exact trace_fresh|]. split; [exact (proj1 put_db_over)|].
  split; [exact strlen_oversized_key|]. split; [reflexivity|].
  split; [rewrite strlen_oversized_key; reflexivity|].
  exact write_pos_db_over.
Qed.

(** ** Opening *)

(** C8, as stated, fails: with no backing region, [kvm_open] reports nothing;
    line 91 writes through the null pointer. *)
Lemma open_without_memory :
  backing_region no_memory = None
  /\ kvm_open no_memory = Fault
  /\ ~ reports_allocation_error (kvm_open no_memory).
Proof.
  split; [reflexivity|]. split; [reflexivity|].
  unfold reports_allocation_error. intros H. discriminate H.
Qed.

(** C8 (amended). [kvm_open] has no error result: whenever it returns, it
    returns a handle, never [NULL]; the region of that handle was obtained
    from [mmap] or, when [mmap] failed, from [malloc]; its Bloom and bucket
    zones are zero, its cursor is at the start of the data zone and it holds
    no entry. *)
Theorem open_returns_usable_handle env r :
  kvm_open env = Ok r ->
  exists db m,
    r = Some db
    /\ backing_region env = Some m
    /\ (if mmap_ok env then m = (fun _ => Byte.x00) else malloc_block env = Some m)
    /\ (forall x, mem db x = if (0 <=? x) && (x <? DATA_OFF) then Byte.x00 else m x)
    /\ mem_size db = POOL_SIZE
    /\ write_pos db = DATA_OFF
    /\ count db = 0
    /\ trace db [].
Proof.
  intros H. pose proof H as H0. unfold kvm_open in H.
  destruct (calloc_ok env); [|discriminate].
  destruct (backing_region env) as [m|] eqn:Em; [|discriminate].
  inversion H; subst r; clear H.
  eexists. exists m. split; [reflexivity|]. split; [reflexivity|].
  split.
  { unfold backing_region in Em. destruct (mmap_ok env); [|exact Em].
    inversion Em. reflexivity. }
  split; [intros x; reflexivity|].
  split; [reflexivity|]. split; [reflexivity|]. split; [reflexivity|].
  apply (trace_open env). exact H0.
Qed.

Lemma open_returns_usable_handle_witness :
  exists db m,
    kvm_open malloc_only = Ok (Some db)
    /\ backing_region malloc_only = Some m
    /\ mem db 0 = Byte.x00 /\ mem db DATA_OFF = Byte.xff
    /\ write_pos db = DATA_OFF
    /\ trace db [].
Proof.
  destruct (open_returns_usable_handle malloc_only _ eq_refl)
    as (db & m & H1 & H2 & H3 & H4 & H5 & H6 & H7 & H8).
  exists db, m. inversion H1; subst db. inversion H2; subst m.
  repeat split; try reflexivity. exact H8.
Defined.

(** ** Embedded zero bytes *)

(** C9, as stated, fails: a value with an embedded zero byte comes back cut
    at that byte, and a key with an embedded zero byte is stored, and found,
    as the bytes before it. *)
Lemma embedded_nul_is_cut :
  result ((r <- kvm_put key_a val_1_nul_2 ;;
           v <- kvm_get 2 key_a ;;
           ret (r, v)) fresh)
  = Ok (0, Some [Byte.x31])
  /\ [Byte.x31] <> val_1_nul_2
  /\ result ((r <- kvm_put key_a_nul_b val_1 ;;
              k <- load_bytes (DATA_OFF + Entry_data) 3 ;;
              v <- kvm_get 2 key_a ;;
              ret (r, k, v)) fresh)
     = Ok (0, [Byte.x61; Byte.x31; Byte.x00], Some val_1)
  /\ key_a <> key_a_nul_b.
Proof.
  split; [vm_compute; reflexivity|].
  split; [intros H; discriminate H|].
  split; [vm_compute; reflexivity|].
  intros H; discriminate H.
Qed.

Lemma c_str_nul_free s : nul_free s = true -> c_str s = s.
Proof.
  intros H. unfold c_str, prefix. rewrite strlen_nul_free by assumption.
  rewrite Nat2Z.id. apply firstn_all.
Qed.

(** C9 (amended). Keys and values are C strings: on every open handle with
    room for the header and the bytes of key and value before their first
    zero byte, [kvm_put] returns 0 and stores exactly those bytes, and the
    [kvm_get] that follows returns the bytes of the value before its first
    zero byte; these are the whole key and the whole value when they contain
    no zero byte. *)
Theorem put_get_c_strings db log key value :
  trace db log ->
  sizeof_Entry + strlen key + strlen value <= remaining db ->
  exists db',
    kvm_put key value db = Ok (0, db')
    /\ read32 (mem db') (write_pos db + Entry_klen) = strlen key
    /\ read32 (mem db') (write_pos db + Entry_vlen) = strlen value
    /\ read_bytes (mem db') (write_pos db + Entry_data) (Z.to_nat (strlen key))
       = c_str key
    /\ read_bytes (mem db') (write_pos db + Entry_data + strlen key)
                  (Z.to_nat (strlen value))
       = c_str value
    /\ (forall fuel, (Z.to_nat (count db') < fuel)%nat ->
          kvm_get fuel key db' = Ok (Some (c_str value), db'))
    /\ (nul_free key = true -> c_str key = key)
    /\ (nul_free value = true -> c_str value = value).
Proof.
  intros T Hcap. pose proof (trace_rep _ _ T) as R.
  destruct (sufficient_capacity _ _ _ _ R Hcap) as (Hk & Hv & _).
  destruct (put_then_get _ _ _ _ R Hcap) as (Hput & _ & Hget).
  destruct (sufficient_capacity _ _ _ _ R Hcap) as (_ & _ & Hfit).
  destruct (put_state_entry db log key value R Hfit)
    as (F1 & F2 & _ & F4 & F5 & _).
  exists (put_state db key value).
  unfold c_str. rewrite <- Hk, <- Hv.
  split; [exact Hput|]. split; [exact F1|]. split; [exact F2|].
  split; [exact F4|]. split; [exact F5|]. split; [exact Hget|].
  rewrite Hk, Hv. split; apply c_str_nul_free.
Qed.

Lemma put_get_c_strings_witness :
  trace fresh []
  /\ sizeof_Entry + strlen key_a_nul_b + strlen val_1_nul_2 <= remaining fresh
  /\ exists db',
       kvm_put key_a_nul_b val_1_nul_2 fresh = Ok (0, db')
       /\ read_bytes (mem db') (write_pos fresh + Entry_data) 1 = key_a
       /\ forall fuel, (Z.to_nat (count db') < fuel)%nat ->
            kvm_get fuel key_a_nul_b db' = Ok (Some val_1, db').
Proof.
  assert (H : sizeof_Entry + strlen key_a_nul_b + strlen val_1_nul_2
              <= remaining fresh) by (vm_compute; discriminate).
  split; [exact trace_fresh|]. split; [exact H|].
  destruct (put_get_c_strings fresh [] key_a_nul_b val_1_nul_2 trace_fresh H)
    as (db' & H1 & _ & _ & H4 & _ & H6 & _).
  exists db'. split; [exact H1|]. split; [exact H4|]. exact H6.
Defined.

(** ** Lookups do not write *)

(** C10 (read-only lookup). On every open handle, a [kvm_get] that returns
    leaves the handle, region included, exactly as it was, and with more fuel
    than the handle has entries it does return, the key being found or not. *)
Theorem get_read_only db log key :
  trace db log ->
  (forall fuel r db', kvm_get fuel key db = Ok (r, db') -> db' = db)
  /\ (forall fuel, (Z.to_nat (count db) < fuel)%nat ->
        exists r, kvm_get fuel key db = Ok (r, db)).
Proof.
  intros T. pose proof (trace_rep _ _ T) as R. split.
  - intros fuel r db' H. apply (readonly_kvm_get fuel key db r db' H).
  - intros fuel Hf. exists (lookup key log).
    apply kvm_get_ok; [assumption|]. eapply fuel_enough; eassumption.
Qed.

Lemma get_read_only_witness :
  trace db_a1 [(key_a, val_1)]
  /\ (exists r, kvm_get 2 key_a db_a1 = Ok (r, db_a1))
  /\ (exists r, kvm_get 2 key_b db_a1 = Ok (r, db_a1)).
Proof.
  assert (H : (Z.to_nat (count db_a1) < 2)%nat) by (vm_compute; lia).
  split; [exact trace_db_a1|]. split.
  - exact (proj2 (get_read_only db_a1 [(key_a, val_1)] key_a trace_db_a1) 2%nat H).
  - exact (proj2 (get_read_only db_a1 [(key_a, val_1)] key_b trace_db_a1) 2%nat H).
Defined.

(** * Further properties of the code *)

(** ** Steps of a history *)

(** An operation that returns either leaves the handle as it was or is an
    insertion that fitted. *)
Lemma exec_cases db log o r db' :
  rep db log -> exec o db = Ok (r, db') ->
  (db' = db /\ log_after o r log = log)
  \/ (exists key value,
        o = Put key value /\ r = PutReply 0
        /\ entry_size (klen_of key) (klen_of value) <= remaining db
        /\ db' = put_state db key value).
Proof.
  intros R H. destruct o as [key value | fuel key]; cbn [exec] in H.
  - destruct (kvm_put_cases db log key value R) as [[Hc E]|[Hc E]];
      rewrite (bind_ok _ _ _ _ _ E) in H; inversion H; subst.
    + left. split; reflexivity.
    + right. exists key, value. repeat split. assumption.
  - unfold bind in H.
    destruct (kvm_get fuel key db) as [[v db1]| |] eqn:E; try discriminate.
    apply readonly_kvm_get in E. inversion H; subst.
    left. split; reflexivity.
Qed.

(** Induction over the histories of open handles. *)
Lemma trace_inv (P : KVM -> list args -> Prop) :
  (forall env db, kvm_open env = Ok (Some db) -> P db []) ->
  (forall db log key value,
      rep db log -> P db log ->
      entry_size (klen_of key) (klen_of value) <= remaining db ->
      P (put_state db key value) ((key, value) :: log)) ->
  forall db log, trace db log -> P db log.
Proof.
  intros Hopen Hput db log T.
  induction T as [env db H | db log o r db' T IH H].
  - apply (Hopen env). exact H.
  - pose proof (trace_rep _ _ T) as R.
    destruct (exec_cases _ _ _ _ _ R H) as [[-> ->] | (key & value & -> & -> & Hc & ->)].
    + exact IH.
    + cbn [log_after]. apply Hput; assumption.
Qed.

Lemma result_ok {A} (c : outcome (A * KVM)) (a : A) :
  result c = Ok a -> exists db', c = Ok (a, db').
Proof.
  destruct c as [[a' db']| |]; cbn [result]; intros H; inversion H.
  exists db'. reflexivity.
Qed.

Lemma write_pos_put_state db log key value :
  rep db log ->
  entry_size (klen_of key) (klen_of value) <= remaining db ->
  write_pos (put_state db key value)
  = write_pos db + entry_size (klen_of key) (klen_of value).
Proof.
  intros R Hc. pose proof (remaining_put_state _ _ key value R Hc) as Hr.
  unfold remaining in Hr. cbn [put_state mem_size] in Hr.
  cbn [put_state write_pos] in *. lia.
Qed.

(** ** The entry counter and the space used *)

(** X1. On every open handle the entry counter is the number of insertions
    that returned 0, and it never exceeds the number of 16-byte entries that
    the data zone can hold. *)
Theorem count_is_successful_puts db log :
  trace db log ->
  count db = Z.of_nat (length log) /\ count db <= MAX_ENTRIES.
Proof.
  intros T. pose proof (trace_rep _ _ T) as R.
  rewrite (rep_count _ _ R). split; [reflexivity | apply (rep_length db); exact R].
Qed.

Lemma count_is_successful_puts_witness :
  trace db_fp log_fp
  /\ count db_fp = 3 /\ count db_fp <= MAX_ENTRIES.
Proof.
  split; [exact trace_db_fp|].
  exact (count_is_successful_puts db_fp log_fp trace_db_fp).
Defined.

(** X2. On every open handle the write cursor, which [main] prints as the
    memory used, is the start of the data zone plus the sizes of the entries
    of all the insertions that returned 0. *)
Theorem write_pos_is_space_used db log :
  trace db log -> write_pos db = DATA_OFF + used log.
Proof.
  revert db log. apply trace_inv.
  - intros env db H. unfold kvm_open in H.
    destruct (calloc_ok env); [|discriminate].
    destruct (backing_region env); [|discriminate].
    inversion H. cbn [write_pos used fold_right]. lia.
  - intros db log key value R IH Hc.
    rewrite (write_pos_put_state _ _ _ _ R Hc), IH.
    change (used ((key, value) :: log))
      with (entry_size (klen_of key) (klen_of value) + used log).
    lia.
Qed.

Lemma write_pos_is_space_used_witness :
  trace db_fp log_fp
  /\ write_pos db_fp = DATA_OFF + used log_fp /\ used log_fp = 56.
Proof.
  split; [exact trace_db_fp|].
  split; [exact (write_pos_is_space_used db_fp log_fp trace_db_fp) | reflexivity].
Defined.

(** ** What is written stays *)

Lemma exec_data_kept db log o r db' :
  rep db log -> exec o db = Ok (r, db') ->
  forall x, DATA_OFF <= x < write_pos db -> mem db' x = mem db x.
Proof.
  intros R H x Hx.
  destruct (exec_cases _ _ _ _ _ R H) as [[-> _] | (key & value & _ & _ & _ & ->)].
  - reflexivity.
  - cbn [put_state mem]. apply put_mem_old; lia.
Qed.

(** X3. The data zone is append-only: no sequence of operations on an open
    handle changes a byte between the start of the data zone and the write
    cursor. *)
Theorem data_zone_append_only db log os rs db' :
  trace db log ->
  run os db = Ok (rs, db') ->
  forall x, DATA_OFF <= x < write_pos db -> mem db' x = mem db x.
Proof.
  intros T. pose proof (trace_rep _ _ T) as R. clear T.
  revert db log rs db' R.
  induction os as [|o os IH]; intros db log rs db' R H x Hx; cbn [run] in H.
  - inversion H; subst. reflexivity.
  - unfold bind at 1 in H.
    destruct (exec o db) as [[r db1]| |] eqn:E; try discriminate.
    unfold bind in H.
    destruct (run os db1) as [[rs1 db2]| |] eqn:E2; try discriminate.
    inversion H; subst.
    pose proof (exec_write_pos _ _ _ _ _ R E) as [Hw _].
    rewrite (IH _ _ _ _ (exec_rep _ _ _ _ _ R E) E2) by lia.
    apply (exec_data_kept _ _ _ _ _ R E). assumption.
Qed.

Lemma data_zone_append_only_witness :
  trace db_a1 [(key_a, val_1)]
  /\ exists db',
       run [Put key_a val_2; Get 3 key_a; Put key_b val_1] db_a1
       = Ok ([PutReply 0; GetReply (Some val_2); PutReply 0], db')
       /\ forall x, DATA_OFF <= x < write_pos db_a1 -> mem db' x = mem db_a1 x.
Proof.
  split; [exact trace_db_a1|].
  assert (E : result (run [Put key_a val_2; Get 3 key_a; Put key_b val_1] db_a1)
              = Ok [PutReply 0; GetReply (Some val_2); PutReply 0])
    by (vm_compute; reflexivity).
  destruct (result_ok _ _ E) as (db' & H).
  exists db'. split; [exact H|].
  exact (data_zone_append_only db_a1 _ _ _ db' trace_db_a1 H).
Defined.

(** ** The Bloom filter *)

Lemma bloom_set_mem_ext m m' h :
  (forall x, m' x = m x) -> forall x, bloom_set_mem m' h x = bloom_set_mem m h x.
Proof.
  intros H x. unfold bloom_set_mem, write8, write_bytes, read8.
  rewrite !H. reflexivity.
Qed.

Lemma lor_bit_set x i : 0 <= i -> Z.testbit x i = true -> Z.lor x (Z.shiftl 1 i) = x.
Proof.
  intros Hi Hb. rewrite Z.shiftl_1_l. apply Z.bits_inj'. intros n Hn.
  rewrite Z.lor_spec, Z.pow2_bits_eqb by assumption.
  destruct (Z.eqb_spec i n) as [->|_].
  - rewrite Hb. reflexivity.
  - apply orb_false_r.
Qed.

(** Setting a bit that is set writes the byte that was there. *)
Lemma bloom_set_mem_noop m h :
  bit_set m h = true -> forall x, bloom_set_mem m h x = m x.
Proof.
  intros Hb x. destruct (Z.eq_dec x (bloom_addr h)) as [->|Hne].
  - rewrite bit_set_testbit in Hb.
    unfold bloom_set_mem, bloom_mask.
    rewrite lor_bit_set by (apply land7_range || assumption).
    unfold write8.
    pose proof (write_bytes_in m (bloom_addr h)
                  [byte.of_Z (read8 m (bloom_addr h))] 0) as H.
    cbn [length nth] in H. rewrite Z.add_0_r in H. rewrite H by lia.
    apply byte.of_Z_unsigned.
  - apply bloom_set_mem_other. assumption.
Qed.

Lemma bloom_test_bits m key len :
  bloom_test m key len = true ->
  bit_set m (fnv1a key len mod BLOOM_SIZE) = true
  /\ bit_set m (hash2 key len mod BLOOM_SIZE) = true
  /\ bit_set m (hash3 key len mod BLOOM_SIZE) = true.
Proof.
  unfold bloom_test. intros H.
  apply andb_true_iff in H. destruct H as [H H3].
  apply andb_true_iff in H. destruct H as [H1 H2].
  repeat split; assumption.
Qed.

Lemma bloom_add_mem_noop m key len :
  bloom_test m key len = true -> forall x, bloom_add_mem m key len x = m x.
Proof.
  intros H x. apply bloom_test_bits in H. destruct H as (H1 & H2 & H3).
  unfold bloom_add_mem.
  rewrite bloom_set_mem_noop by (repeat apply bit_set_mono; assumption).
  rewrite bloom_set_mem_noop by (repeat apply bit_set_mono; assumption).
  apply bloom_set_mem_noop. assumption.
Qed.

(** X4. [bloom_add] never leaves the bitmap: on a handle whose bitmap is at
    the start of a region of at least [BUCKET_OFF] bytes it returns, for
    every key and every length within the key's buffer (the hash loops read
    [key[0 .. len-1]]), having changed no byte from [BUCKET_OFF] on and none
    of the other fields, and [bloom_maybe] then answers true for that key
    and length. *)
Theorem bloom_add_stays_in_bitmap db key len :
  bloom db = BLOOM_OFF -> BUCKET_OFF <= mem_size db ->
  0 <= len <= Z.of_nat (length key) ->
  exists db',
    bloom_add key len db = Ok (tt, db')
    /\ bloom_maybe key len db' = Ok (true, db')
    /\ (forall x, BUCKET_OFF <= x -> mem db' x = mem db x)
    /\ mem_size db' = mem_size db /\ bloom db' = bloom db
    /\ buckets db' = buckets db /\ write_pos db' = write_pos db
    /\ count db' = count db.
Proof.
  intros Hb Hs _. exists (set_mem (bloom_add_mem (mem db) key len) db).
  split; [apply bloom_add_ok; assumption|].
  split.
  - rewrite bloom_maybe_ok by assumption.
    cbn [set_mem mem]. rewrite bloom_test_after_add. reflexivity.
  - split; [|repeat split].
    intros x Hx. cbn [set_mem mem]. apply bloom_add_mem_other. assumption.
Qed.

Lemma bloom_add_stays_in_bitmap_witness :
  bloom fresh = BLOOM_OFF /\ BUCKET_OFF <= mem_size fresh
  /\ 0 <= 4 <= Z.of_nat (length key_name)
  /\ exists db',
       bloom_add key_name 4 fresh = Ok (tt, db')
       /\ bloom_maybe key_name 4 db' = Ok (true, db')
       /\ (forall x, BUCKET_OFF <= x -> mem db' x = mem fresh x).
Proof.
  assert (H : BUCKET_OFF <= mem_size fresh) by (vm_compute; discriminate).
  assert (Hl : 0 <= 4 <= Z.of_nat (length key_name)) by (cbn [key_name length]; lia).
  split; [reflexivity|]. split; [exact H|]. split; [exact Hl|].
  destruct (bloom_add_stays_in_bitmap fresh key_name 4 eq_refl H Hl)
    as (db' & H1 & H2 & H3 & _).
  exists db'. split; [exact H1|]. split; [exact H2 | exact H3].
Defined.

(** X5. [bloom_add] is idempotent: adding a key, with a length within its
    buffer, a second time leaves every byte of the region as the first
    addition left it. *)
Theorem bloom_add_idempotent db key len :
  bloom db = BLOOM_OFF -> BUCKET_OFF <= mem_size db ->
  0 <= len <= Z.of_nat (length key) ->
  exists db1 db2,
    bloom_add key len db = Ok (tt, db1)
    /\ bloom_add key len db1 = Ok (tt, db2)
    /\ forall x, mem db2 x = mem db1 x.
Proof.
  intros Hb Hs _.
  exists (set_mem (bloom_add_mem (mem db) key len) db).
  eexists. split; [apply bloom_add_ok; assumption|].
  split; [apply bloom_add_ok; assumption|].
  intros x. cbn [set_mem mem]. apply bloom_add_mem_noop.
  apply bloom_test_after_add.
Qed.

Lemma bloom_add_idempotent_witness :
  bloom db_a1 = BLOOM_OFF /\ BUCKET_OFF <= mem_size db_a1
  /\ 0 <= 1 <= Z.of_nat (length key_b)
  /\ exists db1 db2,
       bloom_add key_b 1 db_a1 = Ok (tt, db1)
       /\ bloom_add key_b 1 db1 = Ok (tt, db2)
       /\ forall x, mem db2 x = mem db1 x.
Proof.
  assert (H : BUCKET_OFF <= mem_size db_a1) by (vm_compute; discriminate).
  assert (Hl : 0 <= 1 <= Z.of_nat (length key_b)) by (cbn [key_b length]; lia).
  split; [reflexivity|]. split; [exact H|]. split; [exact Hl|].
  exact (bloom_add_idempotent db_a1 key_b 1 eq_refl H Hl).
Defined.

Lemma put_mem_bloom_kept m wp key value k len :
  DATA_OFF <= wp ->
  bloom_test m k len = true ->
  bloom_test (put_mem m wp key value) k len = true.
Proof.
  intros Hwp H. unfold put_mem. apply bloom_test_mono.
  rewrite <- H. apply bloom_test_ext. intros x Hx.
  pose proof (bucket_addr_range _ (bucket_of_range key)). layout.
  rewrite write32_out by lia. apply entry_mem_out. lia.
Qed.

Lemma exec_bloom_kept db log o r db' k len :
  rep db log -> exec o db = Ok (r, db') ->
  bloom_test (mem db) k len = true -> bloom_test (mem db') k len = true.
Proof.
  intros R H Ht.
  destruct (exec_cases _ _ _ _ _ R H) as [[-> _] | (key & value & _ & _ & _ & ->)].
  - exact Ht.
  - cbn [put_state mem]. apply put_mem_bloom_kept; [|exact Ht].
    pose proof (rep_wp_lo _ _ R). lia.
Qed.

Lemma rep_bloom_maybe db log key len :
  rep db log -> bloom_maybe key len db = Ok (bloom_test (mem db) key len, db).
Proof.
  intros R. apply bloom_maybe_ok; [apply R|].
  rewrite (rep_size _ _ R). layout. lia.
Qed.

(** X6. The Bloom bitmap only grows: once [bloom_maybe] has answered true
    for a key on an open handle, it answers true for it after every further
    sequence of operations. *)
Theorem bloom_maybe_stays_true db log os rs db' key len :
  trace db log ->
  run os db = Ok (rs, db') ->
  bloom_maybe key len db = Ok (true, db) ->
  bloom_maybe key len db' = Ok (true, db').
Proof.
  intros T. pose proof (trace_rep _ _ T) as R. clear T.
  revert db log rs db' R.
  induction os as [|o os IH]; intros db log rs db' R H Hm; cbn [run] in H.
  - inversion H; subst. exact Hm.
  - unfold bind at 1 in H.
    destruct (exec o db) as [[r db1]| |] eqn:E; try discriminate.
    unfold bind in H.
    destruct (run os db1) as [[rs1 db2]| |] eqn:E2; try discriminate.
    inversion H; subst.
    pose proof (exec_rep _ _ _ _ _ R E) as R1.
    apply (IH _ _ _ _ R1 E2).
    rewrite (rep_bloom_maybe _ _ key len R) in Hm.
    rewrite (rep_bloom_maybe _ _ key len R1).
    inversion Hm as [Ht]. rewrite Ht.
    rewrite (exec_bloom_kept _ _ _ _ _ key len R E Ht). reflexivity.
Qed.

Lemma bloom_maybe_stays_true_witness :
  trace db_a1 [(key_a, val_1)]
  /\ bloom_maybe key_a 1 db_a1 = Ok (true, db_a1)
  /\ exists db',
       run [Put key_b val_2; Get 3 key_a] db_a1
       = Ok ([PutReply 0; GetReply (Some val_1)], db')
       /\ bloom_maybe key_a 1 db' = Ok (true, db').
Proof.
  assert (Hm : bloom_maybe key_a 1 db_a1 = Ok (true, db_a1)).
  { rewrite (rep_bloom_maybe _ _ key_a 1 (trace_rep _ _ trace_db_a1)).
    replace (bloom_test (mem db_a1) key_a 1) with true
      by (vm_compute; reflexivity).
    reflexivity. }
  assert (E : result (run [Put key_b val_2; Get 3 key_a] db_a1)
              = Ok [PutReply 0; GetReply (Some val_1)])
    by (vm_compute; reflexivity).
  destruct (result_ok _ _ E) as (db' & H).
  split; [exact trace_db_a1|]. split; [exact Hm|].
  exists db'. split; [exact H|].
  exact (bloom_maybe_stays_true db_a1 _ _ _ db' key_a 1 trace_db_a1 H Hm).
Defined.

(** ** The empty store *)

(** X7. On a handle that [kvm_open] has just returned, whatever memory it
    was given, the filter rejects every key and [kvm_get] returns [NULL]
    before it reads a bucket, hence with any fuel. *)
Theorem get_on_fresh_handle env db key fuel :
  kvm_open env = Ok (Some db) ->
  bloom_maybe key (klen_of key) db = Ok (false, db)
  /\ kvm_get fuel key db = Ok (None, db).
Proof.
  intros H. pose proof (rep_open _ _ H) as R.
  assert (Ht : bloom_test (mem db) key (klen_of key) = false).
  { unfold kvm_open in H.
    destruct (calloc_ok env); [|discriminate].
    destruct (backing_region env) as [m|]; [|discriminate].
    inversion H; subst db; clear H. cbn [mem].
    unfold bloom_test, bit_set at 1, read8.
    pose proof (bloom_addr_range _
                  (mod_BLOOM_SIZE_range (fnv1a key (klen_of key)))) as Ha.
    rewrite memset_in by (layout; lia).
    reflexivity. }
  split.
  - rewrite (rep_bloom_maybe _ _ _ _ R), Ht. reflexivity.
  - unfold kvm_get. rewrite (bind_ok _ _ _ _ _ (rep_bloom_maybe _ _ _ _ R)).
    rewrite Ht. reflexivity.
Qed.

Lemma get_on_fresh_handle_witness :
  exists db,
    kvm_open malloc_only = Ok (Some db)
    /\ bloom_maybe key_a (klen_of key_a) db = Ok (false, db)
    /\ kvm_get 0 key_a db = Ok (None, db).
Proof.
  eexists. split; [reflexivity|].
  exact (get_on_fresh_handle malloc_only _ key_a 0 eq_refl).
Defined.

(** ** Lookups and the history *)

(** X8. An insertion does not change what [kvm_get] returns for another
    key, that is a key whose stored bytes differ from those of the key
    inserted. *)
Theorem put_keeps_other_keys db log key value other fuel :
  trace db log ->
  entry_size (klen_of key) (klen_of value) <= remaining db ->
  stored other <> stored key ->
  (Z.to_nat (count db) + 1 < fuel)%nat ->
  exists db' r,
    kvm_put key value db = Ok (0, db')
    /\ kvm_get fuel other db = Ok (r, db)
    /\ kvm_get fuel other db' = Ok (r, db').
Proof.
  intros T Hc Hne Hf. pose proof (trace_rep _ _ T) as R.
  destruct (kvm_put_cases db log key value R) as [[Hlt _]|[_ E]]; [lia|].
  pose proof (rep_put _ _ key value R ltac:(unfold remaining in Hc; lia)) as R'.
  pose proof (rep_count _ _ R) as Hcount.
  exists (put_state db key value), (lookup other log).
  split; [exact E|]. split.
  - apply kvm_get_ok; [assumption|]. lia.
  - rewrite <- (lookup_other key value other log Hne).
    apply kvm_get_ok; [assumption|]. cbn [length]. lia.
Qed.

Lemma put_keeps_other_keys_witness :
  trace db_a1 [(key_a, val_1)]
  /\ entry_size (klen_of key_b) (klen_of val_2) <= remaining db_a1
  /\ stored key_a <> stored key_b
  /\ exists db' r,
       kvm_put key_b val_2 db_a1 = Ok (0, db')
       /\ kvm_get 3 key_a db_a1 = Ok (r, db_a1)
       /\ kvm_get 3 key_a db' = Ok (r, db').
Proof.
  assert (H1 : entry_size (klen_of key_b) (klen_of val_2) <= remaining db_a1)
    by (vm_compute; discriminate).
  assert (H2 : stored key_a <> stored key_b) by (intros H; discriminate H).
  assert (H3 : (Z.to_nat (count db_a1) + 1 < 3)%nat) by (vm_compute; lia).
  split; [exact trace_db_a1|]. split; [exact H1|]. split; [exact H2|].
  exact (put_keeps_other_keys db_a1 _ key_b val_2 key_a 3 trace_db_a1 H1 H2 H3).
Defined.

Lemma find_permutation (key : list byte) (l l' : list args) :
  Permutation l l' -> NoDup (map stored_key l) ->
  find (same_key key) l = find (same_key key) l'.
Proof.
  intros Hp. induction Hp as [| x l l' Hp IH | x y l | l l' l'' H1 IH1 H2 IH2];
    intros Hnd.
  - reflexivity.
  - cbn [find]. cbn [map] in Hnd. inversion Hnd; subst.
    rewrite IH by assumption. reflexivity.
  - cbn [find].
    destruct (same_key key y) eqn:Ey; destruct (same_key key x) eqn:Ex;
      try reflexivity.
    exfalso. cbn [map] in Hnd. inversion Hnd as [|? ? Hnot _]; subst.
    apply Hnot. left. unfold stored_key.
    unfold same_key in Ex, Ey. apply bytes_eqb_eq in Ex, Ey. congruence.
  - rewrite IH1 by assumption. apply IH2.
    apply (Permutation_NoDup (Permutation_map stored_key H1)). assumption.
Qed.

(** X9. When the stored bytes of the inserted keys (for each key its first
    [strlen mod 2^32] bytes) are pairwise different, the order of the
    insertions does not matter: two open handles with the same successful
    insertions, in any order, return the same for every lookup. *)
Theorem insertion_order_irrelevant db1 log1 db2 log2 key fuel :
  trace db1 log1 -> trace db2 log2 ->
  Permutation log1 log2 ->
  NoDup (map stored_key log1) ->
  (Z.to_nat (count db1) < fuel)%nat ->
  exists r,
    kvm_get fuel key db1 = Ok (r, db1) /\ kvm_get fuel key db2 = Ok (r, db2).
Proof.
  intros T1 T2 Hp Hnd Hf.
  pose proof (trace_rep _ _ T1) as R1. pose proof (trace_rep _ _ T2) as R2.
  pose proof (fuel_enough _ _ _ R1 Hf) as Hf1.
  exists (lookup key log1). split.
  - apply kvm_get_ok; assumption.
  - unfold lookup. rewrite (find_permutation key _ _ Hp Hnd).
    apply kvm_get_ok; [assumption|].
    rewrite <- (Permutation_length Hp). assumption.
Qed.

Lemma trace_db_ab : trace db_ab [(key_b, val_2); (key_a, val_1)].
Proof.
  unfold db_ab.
  repeat (apply trace_put_state; [|vm_compute; discriminate]).
  exact trace_fresh.
Qed.

Lemma trace_db_ba : trace db_ba [(key_a, val_1); (key_b, val_2)].
Proof.
  unfold db_ba.
  repeat (apply trace_put_state; [|vm_compute; discriminate]).
  exact trace_fresh.
Qed.

Lemma insertion_order_irrelevant_witness :
  trace db_ab [(key_b, val_2); (key_a, val_1)]
  /\ trace db_ba [(key_a, val_1); (key_b, val_2)]
  /\ Permutation [(key_b, val_2); (key_a, val_1)] [(key_a, val_1); (key_b, val_2)]
  /\ NoDup (map stored_key [(key_b, val_2); (key_a, val_1)])
  /\ exists r,
       kvm_get 3 key_a db_ab = Ok (r, db_ab)
       /\ kvm_get 3 key_a db_ba = Ok (r, db_ba).
Proof.
  assert (Hp : Permutation [(key_b, val_2); (key_a, val_1)]
                           [(key_a, val_1); (key_b, val_2)])
    by apply perm_swap.
  assert (Hnd : NoDup (map stored_key [(key_b, val_2); (key_a, val_1)])).
  { repeat constructor.
    - intros [H|[]]. discriminate H.
    - intros []. }
  assert (Hf : (Z.to_nat (count db_ab) < 3)%nat) by (vm_compute; lia).
  split; [exact trace_db_ab|]. split; [exact trace_db_ba|].
  split; [exact Hp|]. split; [exact Hnd|].
  exact (insertion_order_irrelevant db_ab _ db_ba _ key_a 3
           trace_db_ab trace_db_ba Hp Hnd Hf).
Defined.

(** ** The cost and the result of a lookup *)

(** The walk of a chain, for every amount of fuel. *)
Lemma chain_walk_exact db wp off l key :
  chain (mem db) wp off l -> wp <= mem_size db ->
  forall fuel,
    chain_walk fuel key (klen_of key) off db
    = if (walk_steps key l <=? fuel)%nat then Ok (lookup key l, db) else OutOfFuel.
Proof.
  intros Hc Hw. induction Hc as [off Hoff | off k v l Hlo Hhi Hk Hv Hkd Hvd Hn IH];
    intros fuel.
  - destruct fuel as [|fuel]; [reflexivity|]. cbn [chain_walk walk_steps].
    replace (off >=? DATA_OFF) with false
      by (symmetry; rewrite Z.geb_leb; apply Z.leb_gt; lia).
    reflexivity.
  - destruct fuel as [|fuel].
    { cbn [chain_walk walk_steps]. destruct (same_key key (k, v)); reflexivity. }
    pose proof (klen_of_range k). pose proof (klen_of_range v).
    pose proof (klen_of_range key).
    cbn [chain_walk walk_steps].
    replace (off >=? DATA_OFF) with true
      by (symmetry; rewrite Z.geb_leb; apply Z.leb_le; lia).
    layout.
    erewrite bind_ok by (apply load32_ok; lia).
    rewrite Hk. unfold lookup. cbn [find].
    change (same_key key (k, v)) with (bytes_eqb (stored k) (stored key)).
    destruct (Z.eqb_spec (klen_of k) (klen_of key)) as [E|E].
    + assert (Hkd' : read_bytes (mem db) (off + 12) (Z.to_nat (klen_of key)) = stored k)
        by (rewrite <- E; exact Hkd).
      erewrite bind_ok.
      2:{ erewrite bind_ok by (apply load_bytes_ok; lia). reflexivity. }
      rewrite Hkd'. change (prefix (klen_of key) key) with (stored key).
      destruct (bytes_eqb (stored k) (stored key)).
      * erewrite bind_ok by (apply load32_ok; lia).
        erewrite bind_ok by (apply load32_ok; lia).
        rewrite Hk, Hv.
        erewrite bind_ok by (apply load_bytes_ok; lia).
        rewrite Hvd. reflexivity.
      * erewrite bind_ok by (apply load32_ok; lia).
        rewrite IH. reflexivity.
    + erewrite bind_ok by reflexivity.
      rewrite bytes_eqb_length.
      2:{ rewrite !length_stored_nat. intros C. apply Z2Nat.inj in C; lia. }
      erewrite bind_ok by (apply load32_ok; lia).
      rewrite IH. reflexivity.
Qed.

Lemma kvm_get_exact db log key fuel :
  rep db log ->
  kvm_get fuel key db
  = if bloom_test (mem db) key (klen_of key)
    then if (walk_steps key (filter (in_bucket (bucket_of key)) log) <=? fuel)%nat
         then Ok (lookup key log, db) else OutOfFuel
    else Ok (None, db).
Proof.
  intros R.
  destruct (bloom_test (mem db) key (klen_of key)) eqn:Ht.
  - rewrite (get_walks db log key fuel R Ht).
    rewrite <- lookup_filter.
    apply (chain_walk_exact db (write_pos db)).
    + apply (rep_chain _ _ R). apply bucket_of_range.
    + rewrite (rep_size _ _ R). apply (rep_wp_hi _ _ R).
  - unfold kvm_get. rewrite (bind_ok _ _ _ _ _ (rep_bloom_maybe _ _ _ _ R)).
    rewrite Ht. reflexivity.
Qed.

Lemma walk_steps_le key l : (walk_steps key l <= S (length l))%nat.
Proof.
  induction l as [|kv l IH]; cbn [walk_steps length]; [lia|].
  destruct (same_key key kv); lia.
Qed.

Lemma walk_steps_miss key l :
  (forall kv, In kv l -> stored_key kv <> stored key) ->
  walk_steps key l = S (length l).
Proof.
  induction l as [|kv l IH]; intros H; cbn [walk_steps length]; [reflexivity|].
  destruct (same_key key kv) eqn:E.
  - unfold same_key in E. apply bytes_eqb_eq in E.
    exfalso. apply (H kv); [left; reflexivity | exact E].
  - rewrite IH; [reflexivity|]. intros kv' Hin. apply H. right. exact Hin.
Qed.

(** X10. The cost of a lookup is the length of one chain: on an open handle
    [kvm_get] returns as soon as its loop may run once more than there are
    inserted entries in the bucket of the key, and the lookup of a key that
    is not stored but passes the filter does test every entry of that
    bucket. *)
Theorem get_walks_one_bucket db log key :
  trace db log ->
  (forall fuel,
      (length (filter (in_bucket (bucket_of key)) log) < fuel)%nat ->
      exists r, kvm_get fuel key db = Ok (r, db))
  /\ (bloom_maybe key (klen_of key) db = Ok (true, db) ->
      (forall kv, In kv log -> stored_key kv <> stored key) ->
      forall fuel,
        (fuel <= length (filter (in_bucket (bucket_of key)) log))%nat ->
        kvm_get fuel key db = OutOfFuel).
Proof.
  intros T. pose proof (trace_rep _ _ T) as R. split.
  - intros fuel Hf. rewrite (kvm_get_exact _ _ _ _ R).
    destruct (bloom_test (mem db) key (klen_of key)); [|eexists; reflexivity].
    pose proof (walk_steps_le key (filter (in_bucket (bucket_of key)) log)).
    replace (walk_steps key (filter (in_bucket (bucket_of key)) log) <=? fuel)%nat
      with true by (symmetry; apply Nat.leb_le; lia).
    eexists; reflexivity.
  - intros Hm Hmiss fuel Hf.
    rewrite (rep_bloom_maybe _ _ _ _ R) in Hm. inversion Hm as [Ht].
    rewrite (kvm_get_exact _ _ _ _ R), Ht.
    rewrite walk_steps_miss.
    + replace (S (length (filter (in_bucket (bucket_of key)) log)) <=? fuel)%nat
        with false by (symmetry; apply Nat.leb_gt; lia).
      reflexivity.
    + intros kv Hin. apply Hmiss. apply filter_In in Hin. apply Hin.
Qed.

Lemma get_walks_one_bucket_witness :
  trace db_fp log_fp
  /\ length (filter (in_bucket (bucket_of key_Aa)) log_fp) = 1%nat
  /\ bloom_maybe key_Aa (klen_of key_Aa) db_fp = Ok (true, db_fp)
  /\ (forall kv, In kv log_fp -> stored_key kv <> stored key_Aa)
  /\ (exists r, kvm_get 2 key_Aa db_fp = Ok (r, db_fp))
  /\ kvm_get 1 key_Aa db_fp = OutOfFuel.
Proof.
  assert (Hm : bloom_maybe key_Aa (klen_of key_Aa) db_fp = Ok (true, db_fp)).
  { rewrite (rep_bloom_maybe _ _ _ _ (trace_rep _ _ trace_db_fp)).
    replace (bloom_test (mem db_fp) key_Aa (klen_of key_Aa)) with true
      by (vm_compute; reflexivity).
    reflexivity. }
  assert (Hmiss : forall kv, In kv log_fp -> stored_key kv <> stored key_Aa).
  { intros kv [<-|[<-|[<-|[]]]] H; discriminate H. }
  split; [exact trace_db_fp|]. split; [reflexivity|]. split; [exact Hm|].
  split; [exact Hmiss|]. split.
  - apply (proj1 (get_walks_one_bucket db_fp log_fp key_Aa trace_db_fp)).
    apply Nat.lt_succ_diag_r.
  - apply (proj2 (get_walks_one_bucket db_fp log_fp key_Aa trace_db_fp) Hm Hmiss).
    apply Nat.le_refl.
Defined.

Lemma nul_free_firstn s : forall n,
  Z.of_nat n <= strlen s -> nul_free (firstn n s) = true.
Proof.
  induction s as [|b t IH]; intros n Hn.
  - rewrite firstn_nil. reflexivity.
  - destruct n as [|n]; [reflexivity|].
    cbn [strlen] in Hn. cbn [firstn nul_free forallb].
    destruct (Z.eqb_spec (byte.unsigned b) 0) as [E|E]; [lia|].
    cbn [negb andb]. apply IH. lia.
Qed.

Lemma nul_free_stored s : nul_free (stored s) = true.
Proof.
  unfold stored, prefix. apply nul_free_firstn.
  pose proof (klen_of_range s). pose proof (klen_of_le_strlen s). lia.
Qed.

(** X11. [kvm_get] makes nothing up: whenever it returns a string on an
    open handle, with any fuel, the handle is unchanged, the string has no
    zero byte and is shorter than [2^32] bytes, and it is the stored value of
    an insertion that returned 0 and whose stored key is that of the key
    looked up. *)
Theorem get_returns_inserted_value db log key fuel v db' :
  trace db log ->
  kvm_get fuel key db = Ok (Some v, db') ->
  db' = db
  /\ nul_free v = true /\ Z.of_nat (length v) < 2 ^ 32
  /\ exists k value,
       In (k, value) log /\ stored k = stored key /\ v = stored value.
Proof.
  intros T H. pose proof (trace_rep _ _ T) as R.
  rewrite (kvm_get_exact _ _ _ _ R) in H.
  assert (Hl : lookup key log = Some v /\ db' = db).
  { destruct (bloom_test (mem db) key (klen_of key)); [|discriminate].
    destruct (walk_steps key (filter (in_bucket (bucket_of key)) log) <=? fuel)%nat;
      [|discriminate].
    inversion H; subst. split; reflexivity. }
  destruct Hl as [Hl ->]. split; [reflexivity|].
  unfold lookup in Hl.
  destruct (find (same_key key) log) as [[k value]|] eqn:E; [|discriminate].
  inversion Hl; subst v. cbn [snd].
  apply find_some in E. destruct E as [Hin Hk].
  unfold same_key in Hk. cbn [fst] in Hk. apply bytes_eqb_eq in Hk.
  split; [apply nul_free_stored|].
  split; [rewrite length_stored; apply klen_of_range|].
  exists k, value. repeat split; assumption.
Qed.

Lemma get_returns_inserted_value_witness :
  trace db_ab [(key_b, val_2); (key_a, val_1)]
  /\ kvm_get 1 key_b db_ab = Ok (Some val_2, db_ab)
  /\ nul_free val_2 = true
  /\ exists k value,
       In (k, value) [(key_b, val_2); (key_a, val_1)]
       /\ stored k = stored key_b /\ val_2 = stored value.
Proof.
  assert (H : kvm_get 1 key_b db_ab = Ok (Some val_2, db_ab)).
  { rewrite (kvm_get_exact _ _ _ _ (trace_rep _ _ trace_db_ab)).
    replace (bloom_test (mem db_ab) key_b (klen_of key_b)) with true
      by (vm_compute; reflexivity).
    reflexivity. }
  split; [exact trace_db_ab|]. split; [exact H|].
  destruct (get_returns_inserted_value db_ab _ key_b 1 val_2 db_ab trace_db_ab H)
    as (_ & H2 & _ & H4).
  split; [exact H2 | exact H4].
Defined.

(** ** The result of an insertion *)

(** X12. On an open handle [kvm_put] reads and writes inside the region
    only and returns 0 or -1: 0 exactly when the entry fits in the bytes
    that remain, and then the counter has gone up by one and the cursor by
    the size of the entry; -1 otherwise, with the handle left as it was. *)
Theorem put_returns_0_iff_fits db log key value :
  trace db log ->
  exists r db',
    kvm_put key value db = Ok (r, db')
    /\ (r = 0 \/ r = -1)
    /\ (r = 0 <-> entry_size (klen_of key) (klen_of value) <= remaining db)
    /\ (r = 0 ->
        count db' = count db + 1
        /\ write_pos db' = write_pos db + entry_size (klen_of key) (klen_of value)
        /\ mem_size db' = mem_size db)
    /\ (r = -1 -> db' = db).
Proof.
  intros T. pose proof (trace_rep _ _ T) as R.
  destruct (kvm_put_cases db log key value R) as [[Hc E]|[Hc E]].
  - exists (-1), db. split; [exact E|]. split; [right; reflexivity|].
    split; [split; [discriminate | lia]|].
    split; [discriminate | reflexivity].
  - exists 0, (put_state db key value). split; [exact E|].
    split; [left; reflexivity|].
    split; [split; [intros _; exact Hc | reflexivity]|].
    split; [|discriminate]. intros _.
    pose proof (rep_put _ _ key value R ltac:(unfold remaining in Hc; lia)) as R'.
    split; [|split; [apply (write_pos_put_state db log); assumption | reflexivity]].
    rewrite (rep_count _ _ R'), (rep_count _ _ R). cbn [length].
    rewrite Nat2Z.inj_succ. lia.
Qed.

Lemma put_returns_0_iff_fits_witness :
  trace fresh []
  /\ (exists db', kvm_put key_a val_1 fresh = Ok (0, db'))
  /\ (exists db', kvm_put pool_sized_key [] fresh = Ok (-1, db')).
Proof.
  split; [exact trace_fresh|]. split.
  - destruct (put_returns_0_iff_fits fresh [] key_a val_1 trace_fresh)
      as (r & db' & H & _ & Hiff & _).
    assert (Hr : r = 0) by (apply Hiff; vm_compute; discriminate).
    subst r. exists db'. exact H.
  - destruct (put_returns_0_iff_fits fresh [] pool_sized_key [] trace_fresh)
      as (r & db' & H & [Hr|Hr] & Hiff & _).
    + exfalso. apply Hiff in Hr. rewrite klen_of_pool_sized_key in Hr.
      vm_compute in Hr. apply Hr. reflexivity.
    + subst r. exists db'. exact H.
Defined.

(** ** The bucket table *)

Lemma bucket_head_shape db log :
  trace db log ->
  forall b, 0 <= b < BUCKET_COUNT ->
    read32 (mem db) (bucket_addr b) = 0
    \/ (DATA_OFF <= read32 (mem db) (bucket_addr b)
        /\ read32 (mem db) (bucket_addr b) + 16 <= write_pos db
        /\ read32 (mem db) (bucket_addr b) mod 8 = 0).
Proof.
  revert db log.
  apply (trace_inv (fun db _ => forall b, 0 <= b < BUCKET_COUNT ->
    read32 (mem db) (bucket_addr b) = 0
    \/ (DATA_OFF <= read32 (mem db) (bucket_addr b)
        /\ read32 (mem db) (bucket_addr b) + 16 <= write_pos db
        /\ read32 (mem db) (bucket_addr b) mod 8 = 0))).
  - intros env db H b Hb. left. unfold kvm_open in H.
    destruct (calloc_ok env); [|discriminate].
    destruct (backing_region env) as [m|]; [|discriminate].
    inversion H; subst db; clear H. cbn [mem].
    pose proof (bucket_addr_range b Hb) as [H1 H2]. layout.
    unfold read32. cbn [read_bytes].
    rewrite !memset_in by lia. reflexivity.
  - intros db log key value R IH Hc b Hb.
    pose proof (rep_wp_lo _ _ R) as Hlo. pose proof (rep_wp_hi _ _ R) as Hhi.
    pose proof (entry_size_min _ _ (klen_of_range key) (klen_of_range value)).
    rewrite (write_pos_put_state _ _ _ _ R Hc). cbn [put_state mem].
    destruct (Z.eq_dec b (bucket_of key)) as [->|Hne].
    + right. rewrite put_mem_head by lia.
      rewrite u32_small by (layout; lia).
      split; [lia|]. split; [lia | apply (rep_wp_align _ _ R)].
    + rewrite put_mem_other_head by (assumption || lia).
      destruct (IH b Hb) as [H0 | (H1 & H2 & H3)]; [left; exact H0|].
      right. split; [assumption|]. split; [lia | assumption].
Qed.

(** X13. On an open handle every bucket head is either 0, and then no
    inserted key hashes to the bucket, or the 8-byte aligned offset of an
    entry that lies in the written part of the data zone, and then some
    inserted key does. *)
Theorem bucket_heads_valid db log b :
  trace db log ->
  0 <= b < BUCKET_COUNT ->
  (read32 (mem db) (bucket_addr b) = 0
   /\ forall key value, In (key, value) log -> bucket_of key <> b)
  \/ (DATA_OFF <= read32 (mem db) (bucket_addr b)
      /\ read32 (mem db) (bucket_addr b) + 16 <= write_pos db
      /\ read32 (mem db) (bucket_addr b) mod 8 = 0
      /\ exists key value, In (key, value) log /\ bucket_of key = b).
Proof.
  intros T Hb. pose proof (trace_rep _ _ T) as R.
  pose proof (rep_chain _ _ R b Hb) as Hc.
  destruct (filter (in_bucket b) log) as [|[k v] l] eqn:Hl.
  - destruct (bucket_head_shape db log T b Hb) as [H0 | (H1 & H2 & H3)].
    + left. split; [exact H0|]. intros key value Hin Hk.
      assert (Hf : In (key, value) (filter (in_bucket b) log)).
      { apply filter_In. split; [exact Hin|].
        unfold in_bucket. cbn [fst]. apply Z.eqb_eq. exact Hk. }
      rewrite Hl in Hf. exact Hf.
    + exfalso. inversion Hc. lia.
  - destruct (bucket_head_shape db log T b Hb) as [H0 | (H1 & H2 & H3)].
    + exfalso. inversion Hc. layout. lia.
    + right. split; [exact H1|]. split; [exact H2|]. split; [exact H3|].
      exists k, v.
      assert (Hf : In (k, v) (filter (in_bucket b) log))
        by (rewrite Hl; left; reflexivity).
      apply filter_In in Hf. destruct Hf as [Hin Hk].
      split; [exact Hin|]. unfold in_bucket in Hk. cbn [fst] in Hk.
      apply Z.eqb_eq. exact Hk.
Qed.

Lemma bucket_heads_valid_witness :
  trace db_a1 [(key_a, val_1)]
  /\ 0 <= bucket_of key_a < BUCKET_COUNT
  /\ DATA_OFF <= read32 (mem db_a1) (bucket_addr (bucket_of key_a))
  /\ read32 (mem db_a1) (bucket_addr (bucket_of key_a)) + 16 <= write_pos db_a1
  /\ read32 (mem db_a1) (bucket_addr (bucket_of key_a)) mod 8 = 0.
Proof.
  pose proof (bucket_of_range key_a) as Ha.
  split; [exact trace_db_a1|]. split; [exact Ha|].
  destruct (bucket_heads_valid db_a1 _ _ trace_db_a1 Ha)
    as [[_ Hnone]|(H1 & H2 & H3 & _)].
  - exfalso. exact (Hnone key_a val_1 (or_introl eq_refl) eq_refl).
  - split; [exact H1|]. split; [exact H2 | exact H3].
Defined.

(** ** The strings of the benchmark *)

Lemma digit_unsigned d : 0 <= d < 10 -> byte.unsigned (digit d) = 48 + d.
Proof.
  intros H. unfold digit. rewrite byte.unsigned_of_Z. unfold byte.wrap.
  apply Z.mod_small. lia.
Qed.

Lemma decimal_digits fuel : forall n,
  0 <= n -> Forall (fun b => 48 <= byte.unsigned b <= 57) (decimal fuel n).
Proof.
  induction fuel as [|fuel IH]; intros n Hn; cbn [decimal]; [constructor|].
  destruct (Z.ltb_spec n 10) as [Hlt|Hge].
  - constructor; [rewrite digit_unsigned; lia | constructor].
  - apply Forall_app. split; [apply IH, Z.div_pos; lia|].
    pose proof (Z.mod_pos_bound n 10 ltac:(lia)).
    constructor; [rewrite digit_unsigned; lia | constructor].
Qed.

Lemma decimal_length_max fuel : forall n, (length (decimal fuel n) <= fuel)%nat.
Proof.
  induction fuel as [|fuel IH]; intros n; cbn [decimal]; [apply Nat.le_refl|].
  destruct (n <? 10); [cbn [length]; lia|].
  rewrite length_app. cbn [length]. specialize (IH (n / 10)). lia.
Qed.

Lemma decimal_length_le fuel : forall n k,
  0 <= n < 10 ^ Z.of_nat k -> (1 <= k)%nat -> (length (decimal fuel n) <= k)%nat.
Proof.
  induction fuel as [|fuel IH]; intros n k Hn Hk; cbn [decimal]; [cbn [length]; lia|].
  destruct (Z.ltb_spec n 10) as [Hlt|Hge]; [cbn [length]; lia|].
  rewrite length_app. cbn [length].
  destruct k as [|[|k]]; [lia | change (10 ^ Z.of_nat 1) with 10 in Hn; lia |].
  rewrite Nat2Z.inj_succ, Z.pow_succ_r in Hn by lia.
  assert (length (decimal fuel (n / 10)) <= S k)%nat; [|lia].
  apply IH; [|lia]. split; [apply Z.div_pos; lia|].
  apply Z.div_lt_upper_bound; lia.
Qed.

Lemma decimal_length_ge fuel : forall n k,
  10 ^ Z.of_nat k <= n -> (k < fuel)%nat -> (k < length (decimal fuel n))%nat.
Proof.
  induction fuel as [|fuel IH]; intros n k Hn Hk; [lia|]. cbn [decimal].
  destruct (Z.ltb_spec n 10) as [Hlt|Hge].
  - destruct k as [|k]; [cbn [length]; lia|]. exfalso.
    rewrite Nat2Z.inj_succ, Z.pow_succ_r in Hn by lia.
    pose proof (Z.pow_pos_nonneg 10 (Z.of_nat k) ltac:(lia) ltac:(lia)). lia.
  - rewrite length_app. cbn [length].
    destruct k as [|k]; [lia|].
    rewrite Nat2Z.inj_succ, Z.pow_succ_r in Hn by lia.
    assert (k < length (decimal fuel (n / 10)))%nat; [|lia].
    apply IH; [|lia]. apply Z.div_le_lower_bound; lia.
Qed.

Lemma undecimal_app s d :
  undecimal (s ++ [d]) = 10 * undecimal s + (byte.unsigned d - 48).
Proof. unfold undecimal. rewrite fold_left_app. reflexivity. Qed.

Lemma undecimal_decimal fuel : forall n,
  0 <= n < 10 ^ Z.of_nat fuel -> undecimal (decimal fuel n) = n.
Proof.
  induction fuel as [|fuel IH]; intros n Hn.
  - change (10 ^ Z.of_nat 0) with 1 in Hn. cbn [decimal].
    unfold undecimal. cbn [fold_left]. lia.
  - cbn [decimal]. destruct (Z.ltb_spec n 10) as [Hlt|Hge].
    + unfold undecimal. cbn [fold_left]. rewrite digit_unsigned by lia. lia.
    + rewrite Nat2Z.inj_succ, Z.pow_succ_r in Hn by lia.
      pose proof (Z.mod_pos_bound n 10 ltac:(lia)).
      rewrite undecimal_app, digit_unsigned by lia.
      rewrite IH.
      * pose proof (Z.div_mod n 10 ltac:(lia)). lia.
      * split; [apply Z.div_pos; lia | apply Z.div_lt_upper_bound; lia].
Qed.

Lemma undecimal_zeros k s : undecimal (repeat (digit 0) k ++ s) = undecimal s.
Proof.
  unfold undecimal. rewrite fold_left_app. f_equal.
  induction k as [|k IH]; [reflexivity|]. cbn [repeat fold_left].
  rewrite digit_unsigned by lia. exact IH.
Qed.

Lemma undecimal_fmt_08d n : 0 <= n < 10 ^ 10 -> undecimal (fmt_08d n) = n.
Proof.
  intros Hn. unfold fmt_08d, fmt_d. rewrite undecimal_zeros.
  apply undecimal_decimal. exact Hn.
Qed.

Lemma digits_nul_free s :
  Forall (fun b => 48 <= byte.unsigned b <= 57) s -> nul_free s = true.
Proof.
  intros H. unfold nul_free. apply forallb_forall. intros b Hb.
  rewrite Forall_forall in H. specialize (H b Hb).
  destruct (Z.eqb_spec (byte.unsigned b) 0); [lia | reflexivity].
Qed.

Lemma nul_free_app a b : nul_free (a ++ b) = nul_free a && nul_free b.
Proof. unfold nul_free. apply forallb_app. Qed.

Lemma fmt_d_nul_free n : 0 <= n -> nul_free (fmt_d n) = true.
Proof. intros H. apply digits_nul_free, decimal_digits, H. Qed.

Lemma fmt_08d_nul_free n : 0 <= n -> nul_free (fmt_08d n) = true.
Proof.
  intros H. unfold fmt_08d. rewrite nul_free_app, fmt_d_nul_free by assumption.
  rewrite andb_true_r. apply digits_nul_free, Forall_forall.
  intros b Hb. apply repeat_spec in Hb. subst b.
  rewrite digit_unsigned; lia.
Qed.

Lemma length_fmt_d n : (1 <= length (fmt_d n) <= 10)%nat.
Proof.
  unfold fmt_d. split; [|apply decimal_length_max].
  cbn [decimal]. destruct (n <? 10); [cbn [length]; lia|].
  rewrite length_app. cbn [length]. lia.
Qed.

Lemma length_fmt_08d n : (8 <= length (fmt_08d n) <= 10)%nat.
Proof.
  unfold fmt_08d. rewrite length_app, repeat_length.
  pose proof (length_fmt_d n). lia.
Qed.

Lemma length_fmt_08d_8 n : 0 <= n < 10 ^ 8 -> length (fmt_08d n) = 8%nat.
Proof.
  intros Hn. unfold fmt_08d. rewrite length_app, repeat_length.
  pose proof (decimal_length_le 10 n 8 Hn ltac:(lia)). fold (fmt_d n) in H. lia.
Qed.

Lemma bench_key_cstring i : 0 <= i -> cstring (bench_key i) = true.
Proof.
  intros Hi. unfold cstring, bench_key.
  rewrite nul_free_app, fmt_08d_nul_free by assumption.
  rewrite length_app. pose proof (length_fmt_08d i). cbn [length nul_free forallb].
  apply andb_true_iff. split; [reflexivity | apply Z.ltb_lt; lia].
Qed.

Lemma bench_miss_cstring i : 0 <= i -> cstring (bench_miss i) = true.
Proof.
  intros Hi. unfold cstring, bench_miss.
  rewrite nul_free_app, fmt_08d_nul_free by assumption.
  rewrite length_app. pose proof (length_fmt_08d i). cbn [length nul_free forallb].
  apply andb_true_iff. split; [reflexivity | apply Z.ltb_lt; lia].
Qed.

Lemma bench_val_cstring i : 0 <= i -> cstring (bench_val i) = true.
Proof.
  intros Hi. unfold cstring, bench_val.
  rewrite !nul_free_app, fmt_d_nul_free by assumption.
  rewrite !length_app. pose proof (length_fmt_d i). cbn [length nul_free forallb].
  apply andb_true_iff. split; [reflexivity | apply Z.ltb_lt; lia].
Qed.

Lemma cstring_klen_of s : cstring s = true -> klen_of s = Z.of_nat (length s).
Proof.
  intros H. apply andb_true_iff in H. destruct H as [Hn Hl].
  apply Z.ltb_lt in Hl. unfold klen_of.
  rewrite strlen_nul_free by assumption. apply u32_small. lia.
Qed.

Lemma bench_key_inj i j :
  0 <= i < 10 ^ 10 -> 0 <= j < 10 ^ 10 -> bench_key i = bench_key j -> i = j.
Proof.
  intros Hi Hj H. unfold bench_key in H. apply app_inv_head in H.
  rewrite <- (undecimal_fmt_08d i Hi), <- (undecimal_fmt_08d j Hj), H.
  reflexivity.
Qed.

Lemma bench_miss_inj i j :
  0 <= i < 10 ^ 10 -> 0 <= j < 10 ^ 10 -> bench_miss i = bench_miss j -> i = j.
Proof.
  intros Hi Hj H. unfold bench_miss in H. apply app_inv_head in H.
  rewrite <- (undecimal_fmt_08d i Hi), <- (undecimal_fmt_08d j Hj), H.
  reflexivity.
Qed.

Lemma bench_miss_not_key i j : bench_miss i <> bench_key j.
Proof. unfold bench_miss, bench_key. cbn [app]. intros H. discriminate H. Qed.

(** The three formats on some indices. *)
Module BenchStrings.
Import String.

Example bench_strings_values :
  bench_key 42 = list_byte_of_string "key_00000042"%string
  /\ bench_val 42 = list_byte_of_string "value_42_data"%string
  /\ bench_miss 42 = list_byte_of_string "miss_00000042"%string
  /\ bench_key 123456789 = list_byte_of_string "key_123456789"%string
  /\ bench_val 99999 = list_byte_of_string "value_99999_data"%string
  /\ bench_val 0 = list_byte_of_string "value_0_data"%string.
Proof. repeat split. Qed.

End BenchStrings.

(** X14. The strings that [main] prepares for an index [i] of the loop
    (an [int], so below [2^31]) are C strings that fit, with their
    terminator, in the 32 and 64 bytes allocated for them; different
    indices give different keys and different missing keys, and no missing
    key is a key. *)
Theorem bench_strings_fit i j :
  0 <= i < 2 ^ 31 -> 0 <= j < 2 ^ 31 ->
  cstring (bench_key i) = true /\ cstring (bench_val i) = true
  /\ cstring (bench_miss i) = true
  /\ Z.of_nat (length (bench_key i)) + 1 <= 32
  /\ Z.of_nat (length (bench_val i)) + 1 <= 64
  /\ Z.of_nat (length (bench_miss i)) + 1 <= 32
  /\ (bench_key i = bench_key j -> i = j)
  /\ (bench_miss i = bench_miss j -> i = j)
  /\ bench_miss i <> bench_key j.
Proof.
  intros Hi Hj.
  pose proof (length_fmt_08d i). pose proof (length_fmt_d i).
  split; [apply bench_key_cstring; lia|].
  split; [apply bench_val_cstring; lia|].
  split; [apply bench_miss_cstring; lia|].
  split; [unfold bench_key; rewrite length_app; cbn [length]; lia|].
  split; [unfold bench_val; rewrite !length_app; cbn [length]; lia|].
  split; [unfold bench_miss; rewrite length_app; cbn [length]; lia|].
  split; [apply bench_key_inj; lia|].
  split; [apply bench_miss_inj; lia|].
  apply bench_miss_not_key.
Qed.

Lemma bench_strings_fit_witness :
  0 <= 42 < 2 ^ 31 /\ 0 <= 100042 < 2 ^ 31
  /\ cstring (bench_key 42) = true
  /\ Z.of_nat (length (bench_val 42)) + 1 <= 64
  /\ bench_miss 42 <> bench_key 100042.
Proof.
  assert (H1 : 0 <= 42 < 2 ^ 31) by lia.
  assert (H2 : 0 <= 100042 < 2 ^ 31) by lia.
  destruct (bench_strings_fit 42 100042 H1 H2)
    as (Hk & _ & _ & _ & Hv & _ & _ & _ & Hm).
  repeat split; try assumption; lia.
Defined.

(** ** Sequences of operations *)

Lemma run_app os1 : forall os2 db rs1 db1 rs2 db2,
  run os1 db = Ok (rs1, db1) -> run os2 db1 = Ok (rs2, db2) ->
  run (os1 ++ os2) db = Ok (rs1 ++ rs2, db2).
Proof.
  induction os1 as [|o os1 IH]; intros os2 db rs1 db1 rs2 db2 H1 H2.
  - cbn [run] in H1. inversion H1; subst. exact H2.
  - cbn [run app] in *. unfold bind at 1 in H1.
    destruct (exec o db) as [[r dbo]| |] eqn:E; try discriminate.
    unfold bind in H1.
    destruct (run os1 dbo) as [[rs dbr]| |] eqn:E1; try discriminate.
    inversion H1; subst.
    rewrite (bind_ok _ _ _ _ _ E), (bind_ok _ _ _ _ _ (IH _ _ _ _ _ _ E1 H2)).
    reflexivity.
Qed.

Lemma used_nonneg kvs : 0 <= used kvs.
Proof.
  induction kvs as [|[k v] kvs IH]; [apply Z.le_refl|].
  change (used ((k, v) :: kvs)) with (entry_size (klen_of k) (klen_of v) + used kvs).
  pose proof (entry_size_min _ _ (klen_of_range k) (klen_of_range v)). lia.
Qed.

Lemma used_app a b : used (a ++ b) = used a + used b.
Proof.
  induction a as [|kv a IH]; [reflexivity|].
  change (used ((kv :: a) ++ b)) with (entry_size_of kv + used (a ++ b)).
  change (used (kv :: a)) with (entry_size_of kv + used a). lia.
Qed.

(** Insertions that fit together all return 0. *)
Lemma run_puts kvs : forall db log,
  trace db log -> used kvs <= remaining db ->
  exists db',
    run (map (fun kv => Put (fst kv) (snd kv)) kvs) db
    = Ok (map (fun _ => PutReply 0) kvs, db')
    /\ trace db' (rev kvs ++ log)
    /\ write_pos db' = write_pos db + used kvs.
Proof.
  induction kvs as [|[k v] kvs IH]; intros db log T Hfit.
  - exists db. split; [reflexivity|]. split; [exact T|].
    change (used []) with 0. lia.
  - change (used ((k, v) :: kvs))
      with (entry_size (klen_of k) (klen_of v) + used kvs) in *.
    pose proof (used_nonneg kvs) as Hu.
    pose proof (trace_rep _ _ T) as R.
    destruct (kvm_put_cases db log k v R) as [[Hc _]|[Hc E]]; [lia|].
    assert (Ex : exec (Put k v) db = Ok (PutReply 0, put_state db k v))
      by (cbn [exec]; rewrite (bind_ok _ _ _ _ _ E); reflexivity).
    pose proof (trace_step _ _ _ _ _ T Ex) as T1. cbn [log_after] in T1.
    destruct (IH (put_state db k v) ((k, v) :: log) T1) as (db' & Hr & T' & Hw).
    { rewrite (remaining_put_state _ _ _ _ R Hc). lia. }
    exists db'. cbn [map run fst snd].
    rewrite (bind_ok _ _ _ _ _ Ex), (bind_ok _ _ _ _ _ Hr).
    split; [reflexivity|]. split.
    + cbn [rev]. rewrite <- app_assoc. exact T'.
    + rewrite Hw, (write_pos_put_state _ _ _ _ R Hc). lia.
Qed.

(** Lookups with enough fuel return what the history says and leave the
    handle as it is. *)
Lemma run_gets db log fuel keys :
  rep db log -> (length log < fuel)%nat ->
  run (map (Get fuel) keys) db
  = Ok (map (fun key => GetReply (lookup key log)) keys, db).
Proof.
  intros R Hf. induction keys as [|key keys IH]; [reflexivity|].
  cbn [map run exec].
  rewrite (bind_ok _ _ _ _ _ (bind_ok _ _ _ _ _ (kvm_get_ok _ _ key _ R Hf))).
  cbn [ret]. rewrite (bind_ok _ _ _ _ _ IH). reflexivity.
Qed.

Lemma lookup_in l : forall key value,
  NoDup (map stored_key l) -> In (key, value) l ->
  lookup key l = Some (stored value).
Proof.
  induction l as [|[k v] l IH]; intros key value Hnd Hin; [destruct Hin|].
  cbn [map] in Hnd. inversion Hnd as [|? ? Hnot Hnd']; subst.
  destruct Hin as [Heq|Hin].
  - inversion Heq; subst. apply lookup_head.
  - rewrite lookup_other; [apply IH; assumption|].
    intros Hs. apply Hnot.
    change (stored_key (k, v)) with (stored k). rewrite <- Hs.
    change (stored key) with (stored_key (key, value)).
    apply in_map. exact Hin.
Qed.

(** ** The run of the benchmark *)

Lemma in_indices num i : In i (indices num) <-> 0 <= i < num.
Proof.
  unfold indices. rewrite in_map_iff. split.
  - intros (n & <- & Hn). apply in_seq in Hn. lia.
  - intros Hi. exists (Z.to_nat i). split; [lia|]. apply in_seq. lia.
Qed.

Lemma length_indices num : length (indices num) = Z.to_nat num.
Proof. unfold indices. rewrite length_map, length_seq. reflexivity. Qed.

Lemma NoDup_indices num : NoDup (indices num).
Proof.
  unfold indices. apply NoDup_map_NoDup_ForallPairs; [|apply seq_NoDup].
  intros x y _ _ H. apply Nat2Z.inj. exact H.
Qed.

Lemma bench_entry_size i :
  0 <= i < 10 ^ 8 ->
  entry_size (klen_of (bench_key i)) (klen_of (bench_val i))
  = if i <? 100000 then 40 else 48.
Proof.
  intros Hi.
  rewrite entry_size_eq by apply klen_of_range.
  rewrite (cstring_klen_of _ (bench_key_cstring i ltac:(lia))).
  rewrite (cstring_klen_of _ (bench_val_cstring i ltac:(lia))).
  unfold bench_key, bench_val. rewrite !length_app, length_fmt_08d_8 by assumption.
  cbn [length]. layout.
  pose proof (length_fmt_d i) as [Hlo _].
  pose proof (decimal_length_le 10 i 8 Hi ltac:(lia)) as H8. fold (fmt_d i) in H8.
  remember (Z.of_nat (length (fmt_d i))) as d eqn:Ed.
  replace (12 + Z.of_nat (4 + 8) + Z.of_nat (6 + (length (fmt_d i) + 5)) + 7)
    with (42 + d) by lia.
  destruct (Z.ltb_spec i 100000) as [Hlt|Hge].
  - pose proof (decimal_length_le 10 i 5 ltac:(change (10 ^ Z.of_nat 5) with 100000; lia)
                                  ltac:(lia)) as H5.
    fold (fmt_d i) in H5.
    replace ((42 + d) / 8) with 5; [reflexivity|].
    apply Z.div_unique with (r := 42 + d - 40); lia.
  - pose proof (decimal_length_ge 10 i 5 ltac:(change (10 ^ Z.of_nat 5) with 100000; lia)
                                  ltac:(lia)) as H6.
    fold (fmt_d i) in H6.
    replace ((42 + d) / 8) with 6; [reflexivity|].
    apply Z.div_unique with (r := 42 + d - 48); lia.
Qed.

Lemma bench_used_succ n :
  0 <= n -> bench_used (n + 1) = bench_used n + (if n <? 100000 then 40 else 48).
Proof.
  intros Hn. unfold bench_used. destruct (Z.ltb_spec n 100000); lia.
Qed.

Lemma used_bench_pairs_nat n :
  Z.of_nat n <= 10 ^ 8 ->
  used (map (fun i => (bench_key i, bench_val i)) (map Z.of_nat (seq 0 n)))
  = bench_used (Z.of_nat n).
Proof.
  induction n as [|n IH]; intros Hn; [reflexivity|].
  rewrite seq_S, !map_app, used_app, IH by lia.
  rewrite Nat2Z.inj_succ. unfold Z.succ. rewrite bench_used_succ by lia.
  cbn [map Nat.add]. 
  change (used [(bench_key (Z.of_nat n), bench_val (Z.of_nat n))])
    with (entry_size (klen_of (bench_key (Z.of_nat n)))
                     (klen_of (bench_val (Z.of_nat n))) + 0).
  rewrite bench_entry_size by lia. lia.
Qed.

Lemma used_bench_pairs num :
  0 <= num <= 10 ^ 8 -> used (bench_pairs num) = bench_used num.
Proof.
  intros Hn. unfold bench_pairs, indices.
  rewrite used_bench_pairs_nat by lia. rewrite Z2Nat.id by lia. reflexivity.
Qed.

Lemma bench_pairs_keys num :
  0 <= num <= 10 ^ 8 -> NoDup (map stored_key (rev (bench_pairs num))).
Proof.
  intros Hn. rewrite map_rev. apply NoDup_rev.
  unfold bench_pairs. rewrite map_map.
  apply NoDup_map_NoDup_ForallPairs; [|apply NoDup_indices].
  intros i j Hi Hj H. apply in_indices in Hi, Hj.
  unfold stored_key in H. cbn [fst] in H.
  rewrite !cstring_stored in H by (apply bench_key_cstring; lia).
  apply bench_key_inj in H; [exact H | |]; lia.
Qed.

Lemma lookup_bench_key num i :
  0 <= num <= 10 ^ 8 -> 0 <= i < num ->
  lookup (bench_key i) (rev (bench_pairs num)) = Some (bench_val i).
Proof.
  intros Hn Hi.
  rewrite (lookup_in _ (bench_key i) (bench_val i) (bench_pairs_keys num Hn)).
  - rewrite cstring_stored by (apply bench_val_cstring; lia). reflexivity.
  - apply in_rev. rewrite rev_involutive. unfold bench_pairs.
    apply (in_map (fun i => (bench_key i, bench_val i))). apply in_indices. exact Hi.
Qed.

Lemma lookup_bench_miss num i :
  0 <= i -> lookup (bench_miss i) (rev (bench_pairs num)) = None.
Proof.
  intros Hi. apply lookup_absent. intros kv Hin.
  apply in_rev in Hin. unfold bench_pairs in Hin.
  apply in_map_iff in Hin. destruct Hin as (j & <- & Hj).
  apply in_indices in Hj. unfold stored_key. cbn [fst].
  rewrite !cstring_stored
    by (apply bench_key_cstring || apply bench_miss_cstring; lia).
  intros H. symmetry in H. exact (bench_miss_not_key _ _ H).
Qed.

Lemma bench_max_value : BENCH_MAX = 1411354.
Proof. reflexivity. Qed.

(** X15. The benchmark measures what it means to measure: on a handle that
    [kvm_open] returned, for every number of records up to [BENCH_MAX]
    (1411354; the default is 100000) the four loops of [main] run to the
    end, every [kvm_put] returns 0, every sequential and every random read
    returns the value written for its key, and every read of a missing key
    returns [NULL]; afterwards the counter is the number of records and the
    cursor, which [main] prints as the memory used, is
    [DATA_OFF + bench_used num]. *)
Theorem bench_run_succeeds env db num fuel rnd :
  kvm_open env = Ok (Some db) ->
  0 <= num <= BENCH_MAX ->
  num < Z.of_nat fuel ->
  exists db',
    run (bench_ops num fuel rnd) db = Ok (bench_replies num rnd, db')
    /\ trace db' (rev (bench_pairs num))
    /\ count db' = num
    /\ write_pos db' = DATA_OFF + bench_used num.
Proof.
  intros Ho Hn Hf. rewrite bench_max_value in Hn.
  assert (Hn8 : 0 <= num <= 10 ^ 8) by lia.
  pose proof (trace_open _ _ Ho) as T. pose proof (rep_open _ _ Ho) as R.
  pose proof (rep_wp_lo _ _ R) as Hlo. cbn [length] in Hlo.
  assert (Hwp : write_pos db = DATA_OFF).
  { unfold kvm_open in Ho.
    destruct (calloc_ok env); [|discriminate].
    destruct (backing_region env); [|discriminate].
    inversion Ho; subst. reflexivity. }
  destruct (run_puts (bench_pairs num) db [] T) as (db' & Hr & T' & Hw).
  { rewrite used_bench_pairs by assumption. unfold remaining.
    rewrite (rep_size _ _ R), Hwp. unfold bench_used. layout. lia. }
  rewrite app_nil_r in T'. pose proof (trace_rep _ _ T') as R'.
  assert (Hlen : (length (rev (bench_pairs num)) < fuel)%nat).
  { rewrite length_rev. unfold bench_pairs. rewrite length_map, length_indices. lia. }
  exists db'. split.
  - unfold bench_ops, bench_replies.
    apply run_app with (db1 := db').
    { unfold bench_writes, bench_pairs in *. rewrite !map_map in Hr. exact Hr. }
    apply run_app with (db1 := db').
    { unfold bench_seq_reads.
      rewrite <- (map_map bench_key (Get fuel)), (run_gets _ _ _ _ R' Hlen).
      rewrite map_map. f_equal. f_equal. apply map_ext_in.
      intros i Hi. apply in_indices in Hi.
      rewrite lookup_bench_key by assumption. reflexivity. }
    apply run_app with (db1 := db').
    { unfold bench_rand_reads.
      rewrite <- (map_map (fun j => bench_key (Z.of_nat (rnd j) mod num)) (Get fuel)).
      rewrite (run_gets _ _ _ _ R' Hlen).
      rewrite map_map. f_equal. f_equal. apply map_ext_in.
      intros j Hj. apply in_seq in Hj.
      rewrite lookup_bench_key; [reflexivity | assumption |].
      apply Z.mod_pos_bound. lia. }
    unfold bench_miss_reads.
    rewrite <- (map_map bench_miss (Get fuel)), (run_gets _ _ _ _ R' Hlen).
    rewrite map_map. f_equal. f_equal. apply map_ext_in.
    intros i Hi. apply in_indices in Hi.
    rewrite lookup_bench_miss by lia. reflexivity.
  - split; [exact T'|]. split.
    + rewrite (rep_count _ _ R'), length_rev. unfold bench_pairs.
      rewrite length_map, length_indices. lia.
    + rewrite Hw, Hwp, used_bench_pairs by assumption. reflexivity.
Qed.

Lemma bench_run_succeeds_witness :
  kvm_open good_allocator = Ok (Some fresh)
  /\ 0 <= DEFAULT_RECORDS <= BENCH_MAX
  /\ DEFAULT_RECORDS < Z.of_nat (Z.to_nat 100001)
  /\ exists db',
       run (bench_ops DEFAULT_RECORDS (Z.to_nat 100001) (fun j => j)) fresh
       = Ok (bench_replies DEFAULT_RECORDS (fun j => j), db')
       /\ count db' = 100000
       /\ write_pos db' = 4163840.
Proof.
  assert (H1 : kvm_open good_allocator = Ok (Some fresh)) by reflexivity.
  assert (H2 : 0 <= DEFAULT_RECORDS <= BENCH_MAX)
    by (rewrite bench_max_value; unfold DEFAULT_RECORDS; lia).
  assert (H3 : DEFAULT_RECORDS < Z.of_nat (Z.to_nat 100001))
    by (rewrite Z2Nat.id by lia; unfold DEFAULT_RECORDS; lia).
  split; [exact H1|]. split; [exact H2|]. split; [exact H3|].
  destruct (bench_run_succeeds good_allocator fresh DEFAULT_RECORDS
              (Z.to_nat 100001) (fun j => j) H1 H2 H3)
    as (db' & Hr & _ & Hc & Hw).
  exists db'. split; [exact Hr|]. split; [exact Hc | exact Hw].
Defined.

(** ** Beyond the capacity of the region *)

Lemma seq_add a b : seq a b = map (Nat.add a) (seq 0 b).
Proof.
  revert a. induction b as [|b IH]; intros a; [reflexivity|].
  cbn [seq map]. f_equal; [lia|].
  rewrite (IH (S a)), (IH 1%nat), map_map. apply map_ext. intros k. lia.
Qed.

Lemma indices_app a b :
  0 <= a -> 0 <= b ->
  indices (a + b) = indices a ++ map (fun k => a + k) (indices b).
Proof.
  intros Ha Hb. unfold indices.
  rewrite Z2Nat.inj_add, seq_app, map_app by assumption. f_equal.
  cbn [Nat.add]. rewrite seq_add, !map_map. apply map_ext. intros k. lia.
Qed.

Lemma indices_split a num :
  0 <= a <= num ->
  indices num = indices a ++ map (fun k => a + k) (indices (num - a)).
Proof.
  intros H. rewrite <- indices_app by lia.
  replace (a + (num - a)) with num by lia. reflexivity.
Qed.

(** Insertions that each do not fit all return -1 and change nothing. *)
Lemma run_puts_full db log kvs :
  rep db log ->
  (forall kv, In kv kvs -> remaining db < entry_size_of kv) ->
  run (map (fun kv => Put (fst kv) (snd kv)) kvs) db
  = Ok (map (fun _ => PutReply (-1)) kvs, db).
Proof.
  intros R. induction kvs as [|[k v] kvs IH]; intros H; [reflexivity|].
  cbn [map run exec fst snd].
  destruct (kvm_put_cases db log k v R) as [[_ E]|[Hc _]].
  - rewrite (bind_ok _ _ _ _ _ (bind_ok _ _ _ _ _ E)). cbn [ret].
    rewrite (bind_ok _ _ _ _ _ (IH (fun kv Hin => H kv (or_intror Hin)))).
    reflexivity.
  - specialize (H (k, v) (or_introl eq_refl)). unfold entry_size_of in H.
    cbn [fst snd] in H. lia.
Qed.

Lemma bench_entry_size_min i :
  0 <= i -> 36 <= entry_size (klen_of (bench_key i)) (klen_of (bench_val i)).
Proof.
  intros Hi.
  pose proof (entry_size_bounds _ _ (klen_of_range (bench_key i))
                                (klen_of_range (bench_val i))) as [[Hlo _] _].
  pose proof (cstring_klen_of _ (bench_key_cstring i Hi)) as Hk.
  pose proof (cstring_klen_of _ (bench_val_cstring i Hi)) as Hv.
  unfold bench_key in Hk at 2. unfold bench_val in Hv at 2.
  rewrite !length_app in Hk, Hv.
  pose proof (length_fmt_08d i). pose proof (length_fmt_d i).
  cbn [length] in Hk, Hv. rewrite ?length_app in Hv. cbn [length] in Hv.
  layout. lia.
Qed.

(** X16. [BENCH_MAX] is sharp, and [main] does not look at what [kvm_put]
    returns: with more records than [BENCH_MAX] the first [BENCH_MAX]
    insertions return 0 and every later one returns -1, the counter stops at
    [BENCH_MAX], and the keys of the later records are not found. *)
Theorem bench_run_overflows env db num :
  kvm_open env = Ok (Some db) ->
  BENCH_MAX < num < 2 ^ 31 ->
  exists db',
    run (bench_writes num) db
    = Ok (map (fun i => PutReply (if i <? BENCH_MAX then 0 else -1))
              (indices num), db')
    /\ count db' = BENCH_MAX
    /\ remaining db' = 32
    /\ forall fuel i,
         BENCH_MAX <= i < num -> BENCH_MAX < Z.of_nat fuel ->
         kvm_get fuel (bench_key i) db' = Ok (None, db').
Proof.
  intros Ho Hn. pose proof bench_max_value as Hmax.
  remember BENCH_MAX as a eqn:Ea in *. clear Ea.
  pose proof (trace_open _ _ Ho) as T. pose proof (rep_open _ _ Ho) as R.
  assert (Hwp : write_pos db = DATA_OFF).
  { unfold kvm_open in Ho.
    destruct (calloc_ok env); [|discriminate].
    destruct (backing_region env); [|discriminate].
    inversion Ho; subst. reflexivity. }
  assert (Hu : used (bench_pairs a) = 66944992)
    by (rewrite used_bench_pairs by lia; rewrite Hmax; reflexivity).
  destruct (run_puts (bench_pairs a) db [] T) as (db' & Hr & T' & Hw).
  { rewrite Hu. unfold remaining. rewrite (rep_size _ _ R), Hwp. layout. lia. }
  rewrite app_nil_r in T'. pose proof (trace_rep _ _ T') as R'.
  assert (Hrem : remaining db' = 32).
  { unfold remaining. rewrite (rep_size _ _ R'), Hw, Hwp, Hu. reflexivity. }
  exists db'. split; [|split; [|split; [exact Hrem|]]].
  - unfold bench_writes.
    rewrite (indices_split a num), !map_app by lia.
    apply run_app with (db1 := db').
    + unfold bench_pairs in Hr. rewrite !map_map in Hr. cbn [fst snd] in Hr.
      rewrite Hr. apply (f_equal (fun l => Ok (l, db'))). apply map_ext_in.
      intros i Hi. apply in_indices in Hi.
      destruct (Z.ltb_spec i a); [reflexivity | lia].
    + pose proof (run_puts_full db' _
        (map (fun i => (bench_key i, bench_val i))
             (map (fun k => a + k) (indices (num - a)))) R') as Hf.
      rewrite !map_map in Hf. cbn [fst snd] in Hf. rewrite !map_map.
      rewrite Hf.
      * apply (f_equal (fun l => Ok (l, db'))). apply map_ext_in. intros k Hk. apply in_indices in Hk.
        destruct (Z.ltb_spec (a + k) a); [lia | reflexivity].
      * intros kv Hin. apply in_map_iff in Hin. destruct Hin as (k & <- & Hk).
        apply in_indices in Hk. unfold entry_size_of. cbn [fst snd].
        pose proof (bench_entry_size_min (a + k) ltac:(lia)). lia.
  - rewrite (rep_count _ _ R'), length_rev. unfold bench_pairs.
    rewrite length_map, length_indices. apply Z2Nat.id. lia.
  - intros fuel i Hi Hf.
    rewrite (kvm_get_ok _ _ (bench_key i) fuel R').
    + rewrite lookup_absent; [reflexivity|].
      intros kv Hin. apply in_rev in Hin. unfold bench_pairs in Hin.
      apply in_map_iff in Hin. destruct Hin as (j & <- & Hj).
      apply in_indices in Hj. unfold stored_key. cbn [fst].
      rewrite !cstring_stored by (apply bench_key_cstring; lia).
      intros H. apply bench_key_inj in H; lia.
    + rewrite length_rev. unfold bench_pairs.
      rewrite length_map, length_indices. lia.
Qed.

Lemma bench_run_overflows_witness :
  kvm_open good_allocator = Ok (Some fresh)
  /\ BENCH_MAX < 2000000 < 2 ^ 31
  /\ exists db',
       run (bench_writes 2000000) fresh
       = Ok (map (fun i => PutReply (if i <? BENCH_MAX then 0 else -1))
                 (indices 2000000), db')
       /\ count db' = 1411354
       /\ kvm_get (Z.to_nat 1500000) (bench_key 1999999) db' = Ok (None, db').
Proof.
  assert (H1 : kvm_open good_allocator = Ok (Some fresh)) by reflexivity.
  assert (H2 : BENCH_MAX < 2000000 < 2 ^ 31) by (rewrite bench_max_value; lia).
  split; [exact H1|]. split; [exact H2|].
  destruct (bench_run_overflows good_allocator fresh 2000000 H1 H2)
    as (db' & Hr & Hc & _ & Hg).
  exists db'. split; [exact Hr|]. split; [exact Hc|].
  apply Hg; rewrite bench_max_value; [lia|].
  rewrite Z2Nat.id; lia.
Defined.

(** ** Keys are their stored bytes *)

(** X17. The engine identifies a key with the [strlen mod 2^32] bytes it
    stores of it (line 103): after a successful insertion every buffer with
    the same stored bytes as the key finds the value.  So a key of
    [2^32 + 1] bytes is found under its first byte. *)
Theorem get_by_stored_bytes db log key value other fuel :
  trace db log ->
  entry_size (klen_of key) (klen_of value) <= remaining db ->
  stored other = stored key ->
  count db + 1 < Z.of_nat fuel ->
  kvm_put key value db = Ok (0, put_state db key value)
  /\ kvm_get fuel other (put_state db key value)
     = Ok (Some (stored value), put_state db key value).
Proof.
  intros T Hc Hs Hf. pose proof (trace_rep _ _ T) as R.
  destruct (kvm_put_cases db log key value R) as [[Hc' _]|[_ E]]; [lia|].
  split; [exact E|].
  assert (R' : rep (put_state db key value) ((key, value) :: log))
    by (apply rep_put; [assumption | unfold remaining in Hc; lia]).
  rewrite <- (lookup_same key value other log Hs).
  apply kvm_get_ok; [assumption|].
  rewrite (rep_count _ _ R) in Hf. cbn [length]. lia.
Qed.

Lemma get_by_stored_bytes_witness :
  trace fresh []
  /\ entry_size (klen_of oversized_key) (klen_of val_1) <= remaining fresh
  /\ stored key_a = stored oversized_key
  /\ count fresh + 1 < Z.of_nat 2
  /\ kvm_put oversized_key val_1 fresh = Ok (0, put_state fresh oversized_key val_1)
  /\ kvm_get 2 key_a (put_state fresh oversized_key val_1)
     = Ok (Some val_1, put_state fresh oversized_key val_1).
Proof.
  assert (H1 : entry_size (klen_of oversized_key) (klen_of val_1) <= remaining fresh)
    by (rewrite klen_of_oversized_key; vm_compute; discriminate).
  assert (H2 : stored key_a = stored oversized_key).
  { unfold oversized_key. rewrite stored_repeat by (intros H; discriminate H).
    rewrite Z2Nat.id by (intros H; discriminate H). reflexivity. }
  assert (H3 : count fresh + 1 < Z.of_nat 2) by (vm_compute; reflexivity).
  split; [exact trace_fresh|]. split; [exact H1|]. split; [exact H2|].
  split; [exact H3|].
  exact (get_by_stored_bytes fresh [] oversized_key val_1 key_a 2
           trace_fresh H1 H2 H3).
Defined.

(** ** The content of the region that [kvm_open] does not clear *)

Lemma bloom_set_mem_low m1 m2 h :
  0 <= h < BLOOM_SIZE ->
  (forall x, 0 <= x < DATA_OFF -> m1 x = m2 x) ->
  forall x, 0 <= x < DATA_OFF -> bloom_set_mem m1 h x = bloom_set_mem m2 h x.
Proof.
  intros Hh H x Hx. pose proof (bloom_addr_range h Hh) as Ha.
  unfold bloom_set_mem, write8, write_bytes, read8.
  rewrite (H (bloom_addr h)) by (layout; lia). rewrite (H x Hx). reflexivity.
Qed.

Lemma bloom_add_mem_low m1 m2 key len :
  (forall x, 0 <= x < DATA_OFF -> m1 x = m2 x) ->
  forall x, 0 <= x < DATA_OFF -> bloom_add_mem m1 key len x = bloom_add_mem m2 key len x.
Proof.
  intros H. unfold bloom_add_mem.
  repeat (apply bloom_set_mem_low; [apply Z.mod_pos_bound; reflexivity|]).
  exact H.
Qed.

Lemma put_mem_low m1 m2 wp key value :
  DATA_OFF <= wp ->
  (forall x, 0 <= x < DATA_OFF -> m1 x = m2 x) ->
  forall x, 0 <= x < DATA_OFF -> put_mem m1 wp key value x = put_mem m2 wp key value x.
Proof.
  intros Hwp H. unfold put_mem. apply bloom_add_mem_low. intros x Hx.
  unfold write32, write_bytes. rewrite !entry_mem_out by lia.
  rewrite (H x Hx). reflexivity.
Qed.

Lemma bloom_test_low m1 m2 key len :
  (forall x, 0 <= x < DATA_OFF -> m1 x = m2 x) ->
  bloom_test m1 key len = bloom_test m2 key len.
Proof.
  intros H. unfold bloom_test.
  assert (E : forall h, bit_set m1 (h mod BLOOM_SIZE) = bit_set m2 (h mod BLOOM_SIZE)).
  { intros h. apply bit_set_ext. apply H.
    pose proof (bloom_addr_range (h mod BLOOM_SIZE)
                  (Z.mod_pos_bound h BLOOM_SIZE eq_refl)). layout. lia. }
  rewrite !E. reflexivity.
Qed.

Lemma exec_same db1 db2 log o :
  rep db1 log -> rep db2 log -> same_meta db1 db2 ->
  result (exec o db1) = result (exec o db2)
  /\ forall r db1', exec o db1 = Ok (r, db1') ->
       exists db2', exec o db2 = Ok (r, db2') /\ same_meta db1' db2'.
Proof.
  intros R1 R2 [Hw Hm]. destruct o as [key value | fuel key]; cbn [exec].
  - assert (Hrem : remaining db1 = remaining db2)
      by (unfold remaining; rewrite (rep_size _ _ R1), (rep_size _ _ R2), Hw;
          reflexivity).
    pose proof (rep_wp_lo _ _ R1) as Hlo.
    destruct (kvm_put_cases db1 log key value R1) as [[Hc1 E1]|[Hc1 E1]];
      destruct (kvm_put_cases db2 log key value R2) as [[Hc2 E2]|[Hc2 E2]];
      try lia;
      rewrite (bind_ok _ _ _ _ _ E1), (bind_ok _ _ _ _ _ E2); cbn [ret result];
      (split; [reflexivity|]); intros r db1' H; inversion H; subst;
      eexists; (split; [reflexivity|]).
    + split; assumption.
    + split; cbn [put_state write_pos mem]; [rewrite Hw; reflexivity|].
      rewrite Hw. apply put_mem_low; [lia | assumption].
  - unfold bind.
    rewrite (kvm_get_exact _ _ key fuel R1), (kvm_get_exact _ _ key fuel R2).
    rewrite (bloom_test_low (mem db1) (mem db2) _ _ Hm).
    destruct (bloom_test (mem db2) key (klen_of key)).
    + destruct (walk_steps key (filter (in_bucket (bucket_of key)) log) <=? fuel)%nat.
      * split; [reflexivity|]. intros r db1' H. inversion H; subst.
        eexists. split; [reflexivity | split; assumption].
      * split; [reflexivity|]. intros r db1' H. discriminate H.
    + split; [reflexivity|]. intros r db1' H. inversion H; subst.
      eexists. split; [reflexivity | split; assumption].
Qed.

Lemma run_same os : forall db1 db2 log,
  rep db1 log -> rep db2 log -> same_meta db1 db2 ->
  result (run os db1) = result (run os db2).
Proof.
  induction os as [|o os IH]; intros db1 db2 log R1 R2 S; [reflexivity|].
  destruct (exec_same db1 db2 log o R1 R2 S) as [Hres Hok].
  cbn [run]. unfold bind at 1 3.
  destruct (exec o db1) as [[r db1']| |] eqn:E1.
  - destruct (Hok r db1' eq_refl) as (db2' & E2 & S').
    rewrite E2.
    pose proof (IH db1' db2' _ (exec_rep _ _ _ _ _ R1 E1)
                   (exec_rep _ _ _ _ _ R2 E2) S') as Hrun.
    unfold bind.
    destruct (run os db1') as [[rs1 d1]| |]; destruct (run os db2') as [[rs2 d2]| |];
      cbn [result] in Hrun; try discriminate Hrun; try reflexivity.
    inversion Hrun; subst. reflexivity.
  - destruct (exec o db2) as [[r db2']| |]; cbn [result] in Hres;
      try discriminate Hres. reflexivity.
  - destruct (exec o db2) as [[r db2']| |]; cbn [result] in Hres;
      try discriminate Hres. reflexivity.
Qed.

(** X18. What the region holds beyond the bitmap and the bucket table when
    it is obtained is never observed: two handles returned by [kvm_open],
    whatever memory [mmap] or the fall-back [malloc] provided, answer every
    sequence of operations alike.  This is why line 91 may clear the first
    [DATA_OFF] bytes only. *)
Theorem uninitialised_data_never_observed env1 env2 db1 db2 os :
  kvm_open env1 = Ok (Some db1) ->
  kvm_open env2 = Ok (Some db2) ->
  result (run os db1) = result (run os db2).
Proof.
  intros H1 H2.
  apply (run_same os db1 db2 []); [apply (rep_open env1) | apply (rep_open env2) |];
    try assumption.
  unfold kvm_open in H1, H2.
  destruct (calloc_ok env1); [|discriminate].
  destruct (backing_region env1) as [m1|]; [|discriminate].
  destruct (calloc_ok env2); [|discriminate].
  destruct (backing_region env2) as [m2|]; [|discriminate].
  inversion H1; inversion H2; subst. split; [reflexivity|].
  intros x Hx. cbn [mem]. rewrite !memset_in by lia. reflexivity.
Qed.

Lemma uninitialised_data_never_observed_witness :
  kvm_open good_allocator = Ok (Some fresh)
  /\ kvm_open malloc_only = Ok (Some db_malloc)
  /\ mem fresh DATA_OFF = Byte.x00 /\ mem db_malloc DATA_OFF = Byte.xff
  /\ result (run [Put key_a val_1; Get 2 key_a; Get 2 key_b] fresh)
     = result (run [Put key_a val_1; Get 2 key_a; Get 2 key_b] db_malloc).
Proof.
  assert (H1 : kvm_open good_allocator = Ok (Some fresh)) by reflexivity.
  assert (H2 : kvm_open malloc_only = Ok (Some db_malloc)) by reflexivity.
  split; [exact H1|]. split; [exact H2|].
  split; [reflexivity|]. split; [reflexivity|].
  exact (uninitialised_data_never_observed good_allocator malloc_only
           fresh db_malloc _ H1 H2).
Defined.
